(** * mtgjson5.utils: a shallow embedding and its properties

    The embedding follows [src/mtgjson5/utils.py].  Python values are
    represented by the inductive type [value]; an exception is the [Raise]
    outcome of the [result] monad.  Library code the module calls
    ([sorted], [itertools.chain], [collections.ChainMap], [gevent.pool],
    [hashlib], [requests]) is given the meaning its documentation states,
    next to the function that uses it. *)

From Stdlib Require Import ZArith String Ascii List Lia.
From stdpp Require Import base list strings sorting pretty.
From Equations Require Import Equations.

Local Open Scope string_scope.
Local Open Scope Z_scope.
Local Open Scope list_scope.

(** ** Python values *)

(** Dictionaries keep their entries in insertion order, so they are
    association lists; keys are strings, as in the JSON documents the
    pipeline builds.  A set is the list of its members in iteration
    order. *)
#[local] Unset Elimination Schemes.
Inductive value : Type :=
| VNone
| VBool (b : bool)
| VInt (z : Z)
| VStr (s : string)
| VTuple (items : list value)
| VList (items : list value)
| VSet (items : list value)
| VDict (entries : list (string * value)).
#[local] Set Elimination Schemes.

Abbreviation dict := (list (string * value)).

(** Induction over [value] that reaches the members of containers. *)
Section ValueInd.
Variable P : value → Prop.
Hypothesis HNone : P VNone.
Hypothesis HBool : ∀ b, P (VBool b).
Hypothesis HInt : ∀ z, P (VInt z).
Hypothesis HStr : ∀ s, P (VStr s).
Hypothesis HTuple : ∀ l, Forall P l → P (VTuple l).
Hypothesis HList : ∀ l, Forall P l → P (VList l).
Hypothesis HSet : ∀ l, Forall P l → P (VSet l).
Hypothesis HDict : ∀ d, Forall (λ kv, P kv.2) d → P (VDict d).

Fixpoint value_nested_ind (v : value) : P v :=
  let members := fix go (l : list value) : Forall P l :=
    match l return Forall P l with
    | [] => @List.Forall_nil _ P
    | x :: l' => @List.Forall_cons _ P x l' (value_nested_ind x) (go l')
    end in
  match v with
  | VNone => HNone
  | VBool b => HBool b
  | VInt z => HInt z
  | VStr s => HStr s
  | VTuple l => HTuple l (members l)
  | VList l => HList l (members l)
  | VSet l => HSet l (members l)
  | VDict d =>
      HDict d ((fix go (d : dict) : Forall (λ kv, P kv.2) d :=
                  match d return Forall (λ kv, P kv.2) d with
                  | [] => @List.Forall_nil _ _
                  | kv :: d' =>
                      @List.Forall_cons _ (λ kv, P kv.2) kv d' (value_nested_ind kv.2) (go d')
                  end) d)
  end.
End ValueInd.

(** ** Exceptions and the result monad *)

(** [Unmodelled] marks the one place where the embedding gives no meaning
    to a call: [ChainMap] over results that are not dictionaries. *)
Inductive exn : Type :=
| TypeError
| ValueError
| KeyError
| LoopExit
| RequestException
| Unmodelled.

Inductive result (A : Type) : Type :=
| Ok (a : A)
| Raise (e : exn).
Arguments Ok {A} a.
Arguments Raise {A} e.

#[global] Instance result_ret : MRet result := λ A a, Ok a.
#[global] Instance result_bind : MBind result := λ A B f r,
  match r with Ok a => f a | Raise e => Raise e end.
#[global] Instance result_fmap : FMap result := λ A B f r,
  match r with Ok a => Ok (f a) | Raise e => Raise e end.

Definition returns {A} (r : result A) : bool :=
  match r with Ok _ => true | Raise _ => false end.

(** [[k(x) for x in l]], stopping at the first exception. *)
Fixpoint traverse {A B} (k : A → result B) (l : list A) : result (list B) :=
  match l with
  | [] => Ok []
  | x :: l' => y ← k x; ys ← traverse k l'; Ok (y :: ys)
  end.

(** ** Comparison of values *)

Section Lexicographic.
Context {A B : Type}.
Variable eq : A → B → bool.
Variable lt : A → B → result bool.

(** Sequence equality: same length and equal members, position by
    position. *)
Fixpoint seq_eq (xs : list A) (ys : list B) : bool :=
  match xs, ys with
  | [], [] => true
  | x :: xs', y :: ys' => eq x y && seq_eq xs' ys'
  | _, _ => false
  end.

(** Sequence order: the first position where the members differ decides;
    without one, the shorter sequence is the smaller. *)
Fixpoint seq_lt (xs : list A) (ys : list B) : result bool :=
  match xs, ys with
  | [], [] => Ok false
  | [], _ :: _ => Ok true
  | _ :: _, [] => Ok false
  | x :: xs', y :: ys' => if eq x y then seq_lt xs' ys' else lt x y
  end.
End Lexicographic.

(** [x == y].  [True == 1] and [False == 0] as in Python; equality never
    raises on these types. *)
Fixpoint py_eq (a b : value) {struct a} : bool :=
  match a, b with
  | VNone, VNone => true
  | VBool x, VBool y => Z.b2z x =? Z.b2z y
  | VBool x, VInt y => Z.b2z x =? y
  | VInt x, VBool y => x =? Z.b2z y
  | VInt x, VInt y => x =? y
  | VStr x, VStr y => String.eqb x y
  | VTuple xs, VTuple ys => seq_eq py_eq xs ys
  | VList xs, VList ys => seq_eq py_eq xs ys
  | VSet xs, VSet ys =>
      forallb (λ x, existsb (λ y, py_eq x y) ys) xs
      && forallb (λ y, existsb (λ x, py_eq x y) xs) ys
  | VDict xs, VDict ys =>
      forallb (λ kv, existsb (λ kw, String.eqb kv.1 kw.1 && py_eq kv.2 kw.2) ys) xs
      && forallb (λ kw, existsb (λ kv, String.eqb kv.1 kw.1 && py_eq kv.2 kw.2) xs) ys
  | _, _ => false
  end.

(** [x < y], the only comparison [sorted] evaluates.  Numbers compare
    with numbers, strings with strings, tuples with tuples and lists with
    lists (lexicographically), sets with sets (proper inclusion); every
    other pair raises [TypeError], [None] and dictionaries included. *)
Fixpoint py_lt (a b : value) {struct a} : result bool :=
  match a, b with
  | VBool x, VBool y => Ok (Z.b2z x <? Z.b2z y)
  | VBool x, VInt y => Ok (Z.b2z x <? y)
  | VInt x, VBool y => Ok (x <? Z.b2z y)
  | VInt x, VInt y => Ok (x <? y)
  | VStr x, VStr y => Ok (String.ltb x y)
  | VTuple xs, VTuple ys => seq_lt py_eq py_lt xs ys
  | VList xs, VList ys => seq_lt py_eq py_lt xs ys
  | VSet xs, VSet ys =>
      Ok (forallb (λ x, existsb (λ y, py_eq x y) ys) xs
          && negb (forallb (λ y, existsb (λ x, py_eq x y) xs) ys))
  | _, _ => Raise TypeError
  end.

(** ** [sorted] *)

(** [sorted(l)] returns a new list, is stable, and asks only [<].  It is
    modelled as a stable insertion sort: the members are taken from left to
    right and each is moved leftwards past the members it is smaller than;
    the sorted prefix is kept reversed, so its head is the member compared
    first.  Up to the first member that is below its predecessor it makes
    the comparisons CPython makes, each member with its predecessor, from
    the left; where [<] orders the members totally its result is that of
    every stable sort.  An exception of [<] ends the sort. *)
Section Sorted.
Context {A : Type}.
Variable lt : A → A → result bool.

Fixpoint insert_desc (x : A) (rp : list A) : result (list A) :=
  match rp with
  | [] => Ok [x]
  | y :: rp' =>
      b ← lt x y;
      if b : bool then r ← insert_desc x rp'; Ok (y :: r) else Ok (x :: rp)
  end.

Fixpoint sort_into (rp : list A) (l : list A) : result (list A) :=
  match l with
  | [] => Ok rp
  | x :: l' => rp' ← insert_desc x rp; sort_into rp' l'
  end.

Definition sorted_by (l : list A) : result (list A) :=
  rp ← sort_into [] l; Ok (reverse rp).
End Sorted.

Definition sorted : list value → result (list value) := sorted_by py_lt.

(** ** Dictionaries *)

Fixpoint dict_get {V} (k : string) (d : list (string * V)) : option V :=
  match d with
  | [] => None
  | (k', v) :: d' => if String.eqb k k' then Some v else dict_get k d'
  end.

(** [d[k] = v]: an existing key keeps its place, a new key goes last. *)
Fixpoint dict_set {V} (k : string) (v : V) (d : list (string * V)) : list (string * V) :=
  match d with
  | [] => [(k, v)]
  | (k', v') :: d' =>
      if String.eqb k k' then (k', v) :: d' else (k', v') :: dict_set k v d'
  end.

Definition dict_keys {V} (d : list (string * V)) : list string := d.*1.

(** ** [sort_internal_lists] *)

(** The [for key, value in data.items()] loop of the dictionary branch:
    each value is normalised and stored back under its key; [d] is the
    dictionary as mutated so far, and an exception leaves the loop. *)
Section StoreEach.
Variable normalise : value → result value.

Fixpoint store_each (items : dict) (d : dict) : result dict :=
  match items with
  | [] => Ok d
  | (key, val) :: items' =>
      match normalise val with
      | Ok val' => store_each items' (dict_set key val' d)
      | Raise e => Raise e
      end
  end.
End StoreEach.

Fixpoint sort_internal_lists (data : value) : result value :=
  match data with
  | VDict entries => VDict <$> store_each sort_internal_lists entries entries
  | VSet items => VList <$> sorted items
  | VList items => VList <$> sorted items
  | _ => Ok data
  end.

(** ** Iteration, [itertools.chain] and [collections.ChainMap] *)

(** [iter(v)]: the members of a tuple, list or set, the characters of a
    string, the keys of a dictionary; [TypeError] for the rest. *)
Definition py_iter (v : value) : result (list value) :=
  match v with
  | VTuple l | VList l | VSet l => Ok l
  | VStr s => Ok ((λ c, VStr (String c EmptyString)) <$> list_ascii_of_string s)
  | VDict d => Ok (VStr <$> dict_keys d)
  | _ => Raise TypeError
  end.

(** [list(itertools.chain.from_iterable(results))] *)
Definition chain_from_iterable (results : list value) : result (list value) :=
  List.concat (A:=value) <$> traverse py_iter results.

(** [ChainMap], given the maps as its arguments, keeps their list, or one
    empty map when there is none. *)
Definition ChainMap (maps : list dict) : list dict :=
  match maps with
  | [] => [[]]
  | _ => maps
  end.

(** [ChainMap.__getitem__]: the maps are searched from the first to the
    last. *)
Fixpoint chain_getitem (maps : list dict) (k : string) : result value :=
  match maps with
  | [] => Raise KeyError
  | m :: maps' =>
      match dict_get k m with
      | Some v => Ok v
      | None => chain_getitem maps' k
      end
  end.

(** [ChainMap.__iter__]: [d = {}], then [d.update(dict.fromkeys(m))] for
    the maps from the last to the first, then the keys of [d]. *)
Definition chain_iter (maps : list dict) : list string :=
  dict_keys
    (fold_left (λ d m, fold_left (λ d k, dict_set k VNone d) (dict_keys m) d)
               (reverse maps) []).

(** [dict(cm)] for a [ChainMap]: a new dictionary filled with [cm[k]] for
    the keys [k] of [cm], in their order. *)
Fixpoint dict_fill (maps : list dict) (keys : list string) (d : dict) : result dict :=
  match keys with
  | [] => Ok d
  | k :: keys' => v ← chain_getitem maps k; dict_fill maps keys' (dict_set k v d)
  end.

(** Only dictionaries are given a meaning as the maps of a [ChainMap]. *)
Definition as_dict (v : value) : result dict :=
  match v with
  | VDict d => Ok d
  | _ => Raise Unmodelled
  end.

(** [dict] of the [collections.ChainMap] of the unpacked [results] *)
Definition dict_of_chainmap (results : list value) : result dict :=
  maps ← traverse as_dict results;
  dict_fill (ChainMap maps) (chain_iter (ChainMap maps)) [].

(** ** [gevent.pool.Pool] *)

(** [Pool(size)] refuses a negative size. *)
Definition Pool (size : Z) : result nat :=
  if size <? 0 then Raise ValueError else Ok (Z.to_nat size).

(** [Pool.map(task, items)] spawns one greenlet per item, in input order,
    never holding more than [capacity] unfinished greenlets, and returns
    [[g.get() for g in greenlets]]: every greenlet keeps its own outcome, so
    the list is read in input order whatever the order of completion.
    [pick t] chooses which of the running greenlets completes at step [t];
    the model is stated for every such schedule.  A pool without capacity
    can start nothing: the call ends with [LoopExit]. *)
Section PoolMap.
Context {X Y : Type}.
Variable capacity : nat.
Variable pick : nat → nat.
Variable task : X → result Y.

Record pool_state : Type := PoolState {
  pending : list (nat * X);
  running : list (nat * X);
  slots : list (option (result Y))
}.

Definition spawn (st : pool_state) : pool_state :=
  let free := (capacity - length (running st))%nat in
  {| pending := drop free (pending st);
     running := running st ++ take free (pending st);
     slots := slots st |}.

Definition complete (t : nat) (st : pool_state) : pool_state :=
  let j := (pick t mod length (running st))%nat in
  match running st !! j with
  | Some (i, x) =>
      {| pending := pending st;
         running := delete j (running st);
         slots := <[i := Some (task x)]> (slots st) |}
  | None => st
  end.

Fixpoint pool_run (steps : nat) (t : nat) (st : pool_state) : pool_state :=
  match steps with
  | O => st
  | S steps' =>
      let st' := spawn st in
      match running st' with
      | [] => st'
      | _ :: _ => pool_run steps' (S t) (complete t st')
      end
  end.

Definition greenlet_get (slot : option (result Y)) : result Y :=
  match slot with
  | Some r => r
  | None => Raise LoopExit
  end.

Definition pool_map (items : list X) : result (list Y) :=
  let st := pool_run (length items) 0
              {| pending := imap pair items;
                 running := [];
                 slots := replicate (length items) None |} in
  match pending st, running st with
  | [], [] => traverse greenlet_get (slots st)
  | _, _ => Raise LoopExit
  end.
End PoolMap.

(** ** [parallel_call] *)

(** A Python callable receives the list of its positional arguments. *)
Definition callable := list value → result value.

(** [lambda g_args: function( *g_args)]: the members of [g_args] become the
    positional arguments. *)
Definition star (function : callable) (g_args : value) : result value :=
  a ← py_iter g_args; function a.

(** [zip] of [args] with the unpacked [extra_args_rep], every extra argument
    repeated for ever: one tuple per member of [args]. *)
Definition zip_repeat (args : list value) (extra : list value) : list value :=
  (λ a, VTuple (a :: extra)) <$> args.

(** Truth value of [repeatable_args]: [None], [[]] and [()] are false. *)
Definition truthy (repeatable_args : option (list value)) : bool :=
  match repeatable_args with
  | Some (_ :: _) => true
  | _ => false
  end.

Section ParallelCall.
(** The order in which the greenlets of the pool complete. *)
Variable pick : nat → nat.

Definition parallel_call (function : callable) (args : list value)
    (repeatable_args : option (list value))
    (fold_list fold_dict force_starmap : bool) (pool_size : Z) : result value :=
  pool ← Pool pool_size;
  results ←
    (if truthy repeatable_args then
       pool_map pool pick (star function)
                (zip_repeat args (default [] repeatable_args))
     else if force_starmap then
       pool_map pool pick (star function) args
     else
       pool_map pool pick (λ a, function [a]) args);
  if fold_list then VList <$> chain_from_iterable results
  else if fold_dict then VDict <$> dict_of_chainmap results
  else Ok (VList results).
End ParallelCall.

(** ** The world outside: files, the log and the network *)

Abbreviation bytes := (list Byte.byte).

Inductive level : Type := DEBUG | INFO | WARNING | ERROR.

Record request : Type := Request {
  url : string;
  data : list (string * string)
}.

Record response : Type := Response {
  ok : bool;
  text : string
}.

(** [files] maps a path to the contents of the regular file it names;
    [log] holds the records emitted through [LOGGER]; [sent] holds the
    requests handed to [requests.post] so far, oldest first, whether a
    response came back or not. *)
Record world : Type := World {
  files : string → option bytes;
  log : list (level * string);
  sent : list request
}.

Definition LOGGER_warning (msg : string) (w : world) : world :=
  {| files := files w; log := log w ++ [(WARNING, msg)]; sent := sent w |}.

(** ** [get_file_hash] *)

(** [file.read(n)] on the unread rest of a file opened with ["rb"]:
    everything for [n = -1], at most [n] bytes for [0 <= n], and
    [ValueError] for [n < -1]; the result is the data and the new rest. *)
Definition file_read (n : Z) (rest : bytes) : result (bytes * bytes) :=
  if n <? -1 then Raise ValueError
  else if n <? 0 then Ok (rest, [])
  else Ok (take (Z.to_nat n) rest, drop (Z.to_nat n) rest).

(** A value together with the equation that names it, kept for the
    termination proof of the reading loop. *)
Definition inspect {A} (a : A) : {b : A | a = b} := exist _ a eq_refl.

Section Hashing.
(** [consts.HASH_TO_GENERATE] is a [hashlib] object defined in
    [consts.py], which is not among the sources: the digest algorithm is
    a parameter. *)
Context {hasher : Type}.
Variable HASH_TO_GENERATE : hasher.
Variable update : hasher → bytes → hasher.
Variable hexdigest : hasher → string.

(** The [while True] loop: read a block, stop on an empty one, feed it to
    the digest otherwise; an exception of the read leaves the loop. *)
Equations hash_loop (block_size : Z) (hash_operation : hasher) (rest : bytes) :
    result hasher by wf (length rest) lt :=
  hash_loop block_size hash_operation rest with inspect (file_read block_size rest) := {
    | exist _ (Raise e) _ => Raise e
    | exist _ (Ok ([], _)) _ => Ok hash_operation
    | exist _ (Ok (b :: bs, rest')) Hread =>
        hash_loop block_size (update hash_operation (b :: bs)) rest'
  }.
Next Obligation.
  clear hash_loop. revert Hread. unfold file_read.
  destruct (block_size <? -1); [done|]. destruct (block_size <? 0).
  - intros [= -> <-]. simpl. lia.
  - intros [= Ht <-]. rewrite length_drop.
    destruct rest as [|r rest]; [by rewrite take_nil in Ht|].
    destruct (Z.to_nat block_size); [done|]. simpl. lia.
Qed.

(** The function has no [try]: an exception of the read is the outcome of
    the call. *)
Definition get_file_hash (file_to_hash : string) (block_size : Z) (w : world) :
    result string * world :=
  match files w file_to_hash with
  | None =>
      (Ok "", LOGGER_warning
                ("Unable to find " +:+ file_to_hash +:+ ", no hashes generated") w)
  | Some contents =>
      (hexdigest <$> hash_loop block_size HASH_TO_GENERATE contents, w)
  end.
End Hashing.

(** ** [send_push_notification] *)

(** [s.split(",")] *)
Fixpoint split_comma (s : string) : list string :=
  match s with
  | EmptyString => [EmptyString]
  | String c s' =>
      if Ascii.eqb c "," then EmptyString :: split_comma s'
      else match split_comma s' with
           | [] => [String c EmptyString]
           | word :: words => String c word :: words
           end
  end.

Definition nonempty (s : string) : bool :=
  match s with
  | EmptyString => false
  | String _ _ => true
  end.

Section Pushover.
(** [consts.py] is not among the sources: the two values that
    [consts.CONFIG.get("Pushover", ...)] returns, the version string and
    the behaviour of the network are parameters.  A post, made knowing the
    requests posted before it, either brings back a response or raises (a
    connection that fails, a timeout). *)
Variable app_token : string.
Variable user_tokens : string.
Variable MTGJSON_VERSION : string.
Variable service : list request → request → result response.

(** [requests.post(url, data=...)] *)
Definition requests_post (u : string) (d : list (string * string)) (w : world) :
    result response * world :=
  let req := {| url := u; data := d |} in
  (service (sent w) req,
   {| files := files w; log := log w; sent := sent w ++ [req] |}).

(** The [for user in pushover_app_users] loop, threading [all_succeeded]
    and the world.  Nothing catches an exception of the post: it leaves the
    loop and the function. *)
Fixpoint notify_users (message : string) (users : list string)
    (all_succeeded : bool) (w : world) : result bool * world :=
  match users with
  | [] => (Ok all_succeeded, w)
  | user :: users' =>
      match
        requests_post "https://api.pushover.net/1/messages.json"
          [("token", app_token); ("user", user);
           ("title", "MTGJSON " +:+ MTGJSON_VERSION); ("message", message)] w
      with
      | (Ok resp, w1) =>
          if negb (ok resp) then
            notify_users message users' false
              (LOGGER_warning ("Error sending Pushover notification: " +:+ text resp) w1)
          else notify_users message users' all_succeeded w1
      | (Raise e, w1) => (Raise e, w1)
      end
  end.

Definition send_push_notification (message : string) (w : world) :
    result bool * world :=
  let pushover_app_token := app_token in
  let pushover_app_users := filter (λ s, nonempty s = true) (split_comma user_tokens) in
  if negb (nonempty pushover_app_token) then
    (Ok false,
     LOGGER_warning "Unable to send Pushover notification. App token not set." w)
  else if bool_decide (pushover_app_users = []) then
    (Ok false,
     LOGGER_warning "Unable to send Pushover notification. No user keys set." w)
  else notify_users message pushover_app_users true w.
End Pushover.

(** ** Strings *)

Definition LF : ascii := ascii_of_nat 10.
Definition CR : ascii := ascii_of_nat 13.

Fixpoint str_take (n : nat) (s : string) : string :=
  match n, s with
  | S n', String c s' => String c (str_take n' s')
  | _, _ => EmptyString
  end.

Fixpoint str_drop (n : nat) (s : string) : string :=
  match n, s with
  | S n', String _ s' => str_drop n' s'
  | _, _ => s
  end.

(** [s.split(sep)] for a separator of one character. *)
Fixpoint split_char (sep : ascii) (s : string) : list string :=
  match s with
  | EmptyString => [EmptyString]
  | String c s' =>
      if Ascii.eqb c sep then EmptyString :: split_char sep s'
      else match split_char sep s' with
           | [] => [String c EmptyString]
           | word :: words => String c word :: words
           end
  end.

(** [s.split(sep)] for a non-empty separator: the text is scanned from the
    left and cut at every occurrence of [sep] that does not overlap the one
    before.  [skip] counts the characters of the current occurrence still to
    pass. *)
Fixpoint split_from (sep : string) (skip : nat) (s : string) : list string :=
  match s with
  | EmptyString => [EmptyString]
  | String c s' =>
      match skip with
      | S skip' => split_from sep skip' s'
      | O =>
          if String.prefix sep s then
            EmptyString :: split_from sep (String.length sep - 1) s'
          else match split_from sep O s' with
               | [] => [String c EmptyString]
               | word :: words => String c word :: words
               end
      end
  end.

Definition py_split (sep s : string) : list string := split_from sep O s.

(** The characters at which [str.splitlines] ends a line, among the first
    128: line feed, vertical tab, form feed, carriage return, and the file,
    group and record separators. *)
Definition is_line_break (c : ascii) : bool :=
  bool_decide (nat_of_ascii c ∈ [10; 11; 12; 13; 28; 29; 30]%nat).

(** [s.splitlines()]: a carriage return followed by a line feed ends one
    line, and a text that ends with a line break has no empty last line.
    [after_cr] tells that the character before was a carriage return. *)
Fixpoint lines_from (after_cr : bool) (s : string) : list string :=
  match s with
  | EmptyString => []
  | String c s' =>
      if after_cr && Ascii.eqb c LF then lines_from false s'
      else if is_line_break c then EmptyString :: lines_from (Ascii.eqb c CR) s'
      else match lines_from false s' with
           | [] => [String c EmptyString]
           | line :: lines => String c line :: lines
           end
  end.

Definition splitlines (s : string) : list string := lines_from false s.

(** Letters of the first 128 characters, and their two cases. *)
Definition is_lower (c : ascii) : bool :=
  (97 <=? nat_of_ascii c)%nat && (nat_of_ascii c <=? 122)%nat.

Definition is_upper (c : ascii) : bool :=
  (65 <=? nat_of_ascii c)%nat && (nat_of_ascii c <=? 90)%nat.

Definition to_upper (c : ascii) : ascii :=
  if is_lower c then ascii_of_nat (nat_of_ascii c - 32) else c.

Definition to_lower (c : ascii) : ascii :=
  if is_upper c then ascii_of_nat (nat_of_ascii c + 32) else c.

(** [s.title()]: a letter that follows a letter is put in lower case, a
    letter that does not is put in upper case. *)
Fixpoint title_from (previous_is_cased : bool) (s : string) : string :=
  match s with
  | EmptyString => EmptyString
  | String c s' =>
      String (if previous_is_cased then to_lower c else to_upper c)
             (title_from (is_lower c || is_upper c) s')
  end.

Definition title (s : string) : string := title_from false s.

(** ** [url_keygen] *)

Section UrlKeygen.
(** [hashlib.sha256(text.encode()).hexdigest()] *)
Variable sha256_hexdigest : string → string.

(** [str(unique_seed)] for an integer or a string. *)
Definition seed_str (unique_seed : Z + string) : string :=
  match unique_seed with
  | inl z => pretty z
  | inr s => s
  end.

Definition url_keygen (unique_seed : Z + string) (with_leading : bool) : string :=
  let return_value := if with_leading then "https://mtgjson.com/links/" else "" in
  return_value +:+ str_take 16 (sha256_hexdigest (seed_str unique_seed)).
End UrlKeygen.

(** ** [to_camel_case] *)

(** [components[0]] exists: [split] never returns an empty list. *)
Definition to_camel_case (snake_str : string) : string :=
  let components := split_char "_" snake_str in
  match components with
  | [] => EmptyString
  | first :: others => first +:+ String.concat "" (title <$> others)
  end.

(** ** [parse_magic_rules_subset] *)

(** [None] stands for the [IndexError] of an index out of range. *)
Definition parse_magic_rules_subset (magic_rules start_header end_header : string) :
    option string :=
  rules ← (if nonempty start_header && nonempty end_header then
             part ← py_split start_header magic_rules !! 2%nat;
             py_split end_header part !! 0%nat
           else Some magic_rules);
  Some (String.concat (String LF EmptyString) (splitlines rules)).

(** ** [fix_windows_set_name] *)

Section FixWindowsSetName.
(** [consts.BAD_FILE_NAMES], from [consts.py]. *)
Variable BAD_FILE_NAMES : list string.

Definition fix_windows_set_name (set_name : string) : string :=
  if bool_decide (set_name ∈ BAD_FILE_NAMES) then set_name +:+ "_" else set_name.
End FixWindowsSetName.

(** ** Vocabulary of the statements *)

Section Orderable.
Context {A : Type}.
Variable lt : A → A → result bool.

(** The members of [l] are mutually orderable: [<] answers, in both
    directions, for any two of them at different positions. *)
Fixpoint orderable_by (l : list A) : bool :=
  match l with
  | [] => true
  | x :: l' =>
      forallb (λ y, returns (lt x y) && returns (lt y x)) l' && orderable_by l'
  end.

(** [a] is not above [b]: [b < a] answers [False]. *)
Definition le_by (a b : A) : Prop := lt b a = Ok false.

(** Each member of [l] is compared with its predecessor, from the left, as
    long as the answer is [False]; the first comparison that does not
    answer [False] raises.  For the first two members this is the first
    comparison of the sort. *)
Fixpoint run_raises_by (l : list A) : bool :=
  match l with
  | x :: ((y :: _) as l') =>
      match lt y x with
      | Raise _ => true
      | Ok false => run_raises_by l'
      | Ok true => false
      end
  | _ => false
  end.
End Orderable.

Definition orderable : list value → bool := orderable_by py_lt.
Definition py_le : value → value → Prop := le_by py_lt.
Definition run_raises : list value → bool := run_raises_by py_lt.

(** The lists and sets that [sort_internal_lists] sorts: its argument, or
    what is reached from it through the values of dictionaries. *)
Fixpoint visited_lists (v : value) : list (list value) :=
  match v with
  | VList l | VSet l => [l]
  | VDict d => flat_map (λ kv, visited_lists kv.2) d
  | _ => []
  end.

(** Some list or set nested in [v], at any depth, [v] itself included, has
    two members that [<] cannot order. *)
Fixpoint has_unorderable (v : value) : bool :=
  match v with
  | VList l | VSet l => negb (orderable l) || existsb has_unorderable l
  | VTuple l => existsb has_unorderable l
  | VDict d => existsb (λ kv, has_unorderable kv.2) d
  | _ => false
  end.

(** The value stored under each key after normalisation, entry by entry. *)
Definition normalize_entry (kv : string * value) : result (string * value) :=
  v ← sort_internal_lists kv.2; Ok (kv.1, v).

(** What one invocation of the pool computes from a member of [args], for
    each of the three ways [parallel_call] builds its tasks. *)
Definition per_item (function : callable) (repeatable_args : option (list value))
    (force_starmap : bool) (a : value) : result value :=
  match repeatable_args with
  | Some (r :: reps) => function (a :: r :: reps)
  | _ => if force_starmap then star function a else function [a]
  end.

(** A result that is a sequence, with its members. *)
Definition is_sequence_of (r : value) (l : list value) : Prop :=
  r = VList l ∨ r = VTuple l.

(** [lambda x: x] and [lambda x: x * 2], the functions of the examples. *)
Definition identity : callable := λ a,
  match a with
  | [x] => Ok x
  | _ => Raise TypeError
  end.

Definition times_two : callable := λ a,
  match a with
  | [VInt x] => Ok (VInt (x * 2))
  | [VBool b] => Ok (VInt (Z.b2z b * 2))
  | [VStr s] => Ok (VStr (s +:+ s))
  | [VList l] => Ok (VList (l ++ l))
  | [VTuple l] => Ok (VTuple (l ++ l))
  | _ => Raise TypeError
  end.

(** The contents of a file cut into the blocks that successive reads of
    [n] bytes return, up to the first read that returns nothing or
    raises. *)
Equations blocks_of (n : Z) (rest : bytes) : list bytes by wf (length rest) lt :=
  blocks_of n rest with inspect (file_read n rest) := {
    | exist _ (Raise _) _ => []
    | exist _ (Ok ([], _)) _ => []
    | exist _ (Ok (b :: bs, rest')) Hread => (b :: bs) :: blocks_of n rest'
  }.
Next Obligation.
  clear blocks_of. revert Hread. unfold file_read.
  destruct (n <? -1); [done|]. destruct (n <? 0).
  - intros [= -> <-]. simpl. lia.
  - intros [= Ht <-]. rewrite length_drop.
    destruct rest as [|r rest]; [by rewrite take_nil in Ht|].
    destruct (Z.to_nat n); [done|]. simpl. lia.
Qed.

(** The recipients of a notification, as configured. *)
Definition recipients (user_tokens : string) : list string :=
  filter (λ s, nonempty s = true) (split_comma user_tokens).

Definition pushover_request (app_token version message user : string) : request :=
  {| url := "https://api.pushover.net/1/messages.json";
     data := [("token", app_token); ("user", user);
              ("title", "MTGJSON " +:+ version); ("message", message)] |}.

(** What the posts of [reqs] bring back, one after the other, [history]
    having been posted before: a response or an exception each. *)
Fixpoint outcomes (service : list request → request → result response)
    (history : list request) (reqs : list request) : list (result response) :=
  match reqs with
  | [] => []
  | r :: reqs' => service history r :: outcomes service (history ++ [r]) reqs'
  end.

(** The responses that came back before the first post that raised. *)
Fixpoint received (posts : list (result response)) : list response :=
  match posts with
  | Ok resp :: posts' => resp :: received posts'
  | _ => []
  end.

(** The post brought back a response that reports a success. *)
Definition succeeded (post : result response) : bool :=
  match post with
  | Ok resp => ok resp
  | Raise _ => false
  end.

(** The characters of a string, and how often one of them occurs. *)
Abbreviation chars := list_ascii_of_string.

Fixpoint count_char (c : ascii) (s : string) : nat :=
  match s with
  | EmptyString => O
  | String c' s' => ((if Ascii.eqb c' c then 1 else 0) + count_char c s')%nat
  end.

(** The text is made of the first 128 characters only. *)
Definition is_ascii (s : string) : bool :=
  forallb (λ c, nat_of_ascii c <? 128)%nat (chars s).

(** [s.find(sep)]: the first position at which [sep] occurs in [s]. *)
Fixpoint str_find (sep s : string) : option nat :=
  if String.prefix sep s then Some O
  else match s with
       | EmptyString => None
       | String _ s' => S <$> str_find sep s'
       end.

(** The text before the first occurrence of [sep], or the whole text. *)
Definition cut_at (sep s : string) : string :=
  match str_find sep s with
  | Some n => str_take n s
  | None => s
  end.

(** The text after the first occurrence of [sep]. *)
Definition after_first (sep s : string) : option string :=
  n ← str_find sep s; Some (str_drop (n + String.length sep) s).

(** Line breaks replaced by line feeds, the last one dropped. *)
Definition normalise_lines (s : string) : string :=
  String.concat (String LF EmptyString) (splitlines s).

(** The dictionaries that [sort_internal_lists] visits have distinct keys. *)
Fixpoint wf_value (v : value) : bool :=
  match v with
  | VDict d => bool_decide (NoDup (dict_keys d)) && forallb (λ kv, wf_value kv.2) d
  | _ => true
  end.

(** The warnings logged for the responses that are not a success. *)
Definition failure_warnings (resps : list response) : list (level * string) :=
  (λ r, (WARNING, "Error sending Pushover notification: " +:+ text r))
    <$> filter (λ r, ok r = false) resps.

(** * Properties *)

(** ** The result monad *)

Lemma bind_Ok {A B} (r : result A) (k : A → result B) (b : B) :
  r ≫= k = Ok b ↔ ∃ a, r = Ok a ∧ k a = Ok b.
Proof.
  destruct r as [a|e]; simpl.
  - split; [eauto|]. by intros (? & [= <-] & ?).
  - split; [done|]. by intros (? & ? & ?).
Qed.

Lemma bind_Raise {A B} (r : result A) (k : A → result B) (e : exn) :
  r ≫= k = Raise e ↔ r = Raise e ∨ ∃ a, r = Ok a ∧ k a = Raise e.
Proof.
  destruct r as [a|e']; simpl.
  - split; [eauto|]. intros [?|(? & [= <-] & ?)]; done.
  - split; [intros [= ->]; by left|]. intros [[= ->]|(? & ? & ?)]; done.
Qed.

Lemma fmap_Ok {A B} (f : A → B) (r : result A) (b : B) :
  f <$> r = Ok b ↔ ∃ a, r = Ok a ∧ b = f a.
Proof.
  destruct r as [a|e]; simpl.
  - split; [intros [= <-]; eauto|]. by intros (? & [= <-] & ->).
  - split; [done|]. by intros (? & ? & ?).
Qed.

Lemma fmap_Raise {A B} (f : A → B) (r : result A) (e : exn) :
  f <$> r = Raise e ↔ r = Raise e.
Proof. destruct r; simpl; split; congruence. Qed.

(** ** Comparison *)

Lemma forallb_ext_elem {A} (f g : A → bool) (l : list A) :
  Forall (λ x, f x = g x) l → forallb f l = forallb g l.
Proof. induction 1 as [|x l Hx _ IH]; simpl; congruence. Qed.

Lemma existsb_ext_elem {A} (f g : A → bool) (l : list A) :
  Forall (λ x, f x = g x) l → existsb f l = existsb g l.
Proof. induction 1 as [|x l Hx _ IH]; simpl; congruence. Qed.

Lemma seq_eq_sym {A} (eq : A → A → bool) (xs ys : list A) :
  Forall (λ x, ∀ y, eq x y = eq y x) xs → seq_eq eq xs ys = seq_eq eq ys xs.
Proof.
  intros H. revert ys.
  induction H as [|x xs Hx _ IH]; intros [|y ys]; simpl; try done.
  by rewrite Hx, IH.
Qed.

Lemma py_eq_sym (a b : value) : py_eq a b = py_eq b a.
Proof.
  revert b. induction a as [| | | |xs IH|xs IH|xs IH|xs IH] using value_nested_ind;
    intros [| | | |ys|ys|ys|ys]; simpl; try done.
  - apply Z.eqb_sym.
  - apply Z.eqb_sym.
  - apply Z.eqb_sym.
  - apply Z.eqb_sym.
  - apply String.eqb_sym.
  - by apply seq_eq_sym.
  - by apply seq_eq_sym.
  - rewrite andb_comm. f_equal.
    + apply forallb_ext_elem, Forall_forall. intros y _.
      apply existsb_ext_elem. eapply Forall_impl; [exact IH|]. by simpl.
    + apply forallb_ext_elem. eapply Forall_impl; [exact IH|].
      intros x Hx. apply existsb_ext_elem, Forall_forall. intros y _. apply Hx.
  - rewrite andb_comm. f_equal.
    + apply forallb_ext_elem, Forall_forall. intros kw _.
      apply existsb_ext_elem. eapply Forall_impl; [exact IH|].
      intros kv Hkv. simpl in *. by rewrite String.eqb_sym, Hkv.
    + apply forallb_ext_elem. eapply Forall_impl; [exact IH|].
      intros kv Hkv. apply existsb_ext_elem, Forall_forall. intros kw _.
      simpl in *. by rewrite String.eqb_sym, Hkv.
Qed.

Lemma string_ltb_asym (s t : string) : String.ltb s t = true → String.ltb t s = false.
Proof.
  unfold String.ltb. rewrite (String.compare_antisym t s).
  by destruct (String.compare s t).
Qed.

Lemma seq_lt_asym {A} (eq : A → A → bool) (lt : A → A → result bool) (xs ys : list A) :
  (∀ x y, eq x y = eq y x) →
  Forall (λ x, ∀ y, lt x y = Ok true → lt y x = Ok false) xs →
  seq_lt eq lt xs ys = Ok true → seq_lt eq lt ys xs = Ok false.
Proof.
  intros Heq H. revert ys.
  induction H as [|x xs Hx _ IH]; intros [|y ys]; simpl; try done.
  rewrite (Heq y x). destruct (eq x y); [apply IH | apply Hx].
Qed.

(** [<] is asymmetric wherever it answers [True]. *)
Lemma py_lt_asym (a b : value) : py_lt a b = Ok true → py_lt b a = Ok false.
Proof.
  revert b. induction a as [| | | |xs IH|xs IH|xs IH|xs IH] using value_nested_ind;
    intros [| | | |ys|ys|ys|ys]; simpl; try done.
  - intros [= H]. f_equal. lia.
  - intros [= H]. f_equal. lia.
  - intros [= H]. f_equal. lia.
  - intros [= H]. f_equal. lia.
  - intros [= H]. f_equal. by apply string_ltb_asym.
  - apply seq_lt_asym; [apply py_eq_sym | done].
  - apply seq_lt_asym; [apply py_eq_sym | done].
  - intros [= H]. f_equal. apply andb_true_iff in H as [H1 H2].
    apply negb_true_iff in H2.
    assert (forallb (λ x, existsb (λ y, py_eq x y) xs) ys = false) as ->; [|done].
    rewrite <- H2. apply forallb_ext_elem, Forall_forall. intros y _.
    apply existsb_ext_elem, Forall_forall. intros x _. apply py_eq_sym.
Qed.

(** A comparison that fails, fails with [TypeError]. *)
Lemma py_lt_raises (a b : value) (e : exn) : py_lt a b = Raise e → e = TypeError.
Proof.
  revert b. induction a as [| | | |xs IH|xs IH|xs IH|xs IH] using value_nested_ind;
    intros [| | | |ys|ys|ys|ys]; simpl; try congruence.
  - revert ys. induction IH as [|x xs Hx _ IHxs]; intros [|y ys]; simpl; try done.
    destruct (py_eq x y); [apply IHxs | apply Hx].
  - revert ys. induction IH as [|x xs Hx _ IHxs]; intros [|y ys]; simpl; try done.
    destruct (py_eq x y); [apply IHxs | apply Hx].
Qed.

(** ** [sorted] *)

Section SortedFacts.
Context {A : Type}.
Variable lt : A → A → result bool.

Lemma insert_desc_perm x rp r : insert_desc lt x rp = Ok r → r ≡ₚ x :: rp.
Proof.
  revert r. induction rp as [|y rp IH]; simpl; intros r.
  - by intros [= <-].
  - intros (b & Hb & H)%bind_Ok. destruct b.
    + apply bind_Ok in H as (r' & Hr' & [= <-]).
      rewrite (IH _ Hr'). apply Permutation_swap.
    + by injection H as <-.
Qed.

Lemma insert_desc_returns x rp :
  (∀ y, y ∈ rp → returns (lt x y) = true) → ∃ r, insert_desc lt x rp = Ok r.
Proof.
  induction rp as [|y rp IH]; simpl; intros H; [eauto|].
  pose proof (H y ltac:(left)) as Hy.
  destruct (lt x y) as [[]|]; simpl in *; [|eauto|done].
  destruct IH as [r ->]; [|simpl; eauto].
  intros z Hz. apply H. by right.
Qed.

Lemma insert_desc_raise x rp e :
  insert_desc lt x rp = Raise e → ∃ y, y ∈ rp ∧ lt x y = Raise e.
Proof.
  induction rp as [|y rp IH]; simpl; [done|].
  intros [H|(b & Hb & H)]%bind_Raise.
  - exists y. split; [left|done].
  - destruct b; [|done].
    apply bind_Raise in H as [H|(? & ? & ?)]; [|done].
    destruct (IH H) as (z & ? & ?). exists z. split; [by right|done].
Qed.

Lemma sort_into_perm rp l r : sort_into lt rp l = Ok r → r ≡ₚ l ++ rp.
Proof.
  revert rp r. induction l as [|x l IH]; simpl; intros rp r.
  - by intros [= <-].
  - intros (rp' & Hrp' & H)%bind_Ok.
    rewrite (IH _ _ H), (insert_desc_perm _ _ _ Hrp').
    by rewrite Permutation_middle.
Qed.

Lemma sort_into_returns rp l :
  orderable_by lt l = true →
  (∀ x y, x ∈ l → y ∈ rp → returns (lt x y) = true) →
  ∃ r, sort_into lt rp l = Ok r.
Proof.
  revert rp. induction l as [|x l IH]; simpl; intros rp Hl Hrp; [eauto|].
  apply andb_true_iff in Hl as [Hx Hl].
  destruct (insert_desc_returns x rp) as [rp' Hrp'].
  { intros y Hy. apply Hrp; [left|done]. }
  rewrite Hrp'. simpl. apply IH; [done|].
  intros x' y Hx' Hy.
  rewrite (insert_desc_perm _ _ _ Hrp') in Hy.
  apply elem_of_cons in Hy as [->|Hy]; [|apply Hrp; [by right|done]].
  rewrite forallb_forall in Hx.
  apply list_elem_of_In, Hx, andb_true_iff in Hx'. tauto.
Qed.

Lemma sort_into_raise rp l e :
  sort_into lt rp l = Raise e → ∃ x y, lt x y = Raise e.
Proof.
  revert rp. induction l as [|x l IH]; simpl; intros rp; [done|].
  intros [H|(rp' & _ & H)]%bind_Raise; [|by eapply IH].
  apply insert_desc_raise in H as (y & _ & H). eauto.
Qed.

(** The reversed prefix is kept in descending order provided [<] is
    asymmetric. *)
Hypothesis lt_asym : ∀ x y, lt x y = Ok true → lt y x = Ok false.

Lemma insert_desc_sorted x rp r :
  Sorted (flip (le_by lt)) rp → insert_desc lt x rp = Ok r →
  Sorted (flip (le_by lt)) r ∧ (∀ z, HdRel (flip (le_by lt)) z rp →
                                 flip (le_by lt) z x → HdRel (flip (le_by lt)) z r).
Proof.
  revert r. induction rp as [|y rp IH]; simpl; intros r Hs.
  - intros [= <-]. split; [by repeat constructor|]. by constructor.
  - intros (b & Hb & H)%bind_Ok. destruct b.
    + apply bind_Ok in H as (r' & Hr' & [= <-]).
      apply Sorted_inv in Hs as [Hs Hhd].
      destruct (IH _ Hs Hr') as [Hs' Hhd'].
      split.
      * constructor; [done|]. apply Hhd'; [done|].
        unfold flip, le_by. by apply lt_asym.
      * intros z Hz _. constructor. by apply HdRel_inv in Hz.
    + injection H as <-. split.
      * constructor; [done|]. by constructor.
      * intros z _ Hz. by constructor.
Qed.

Lemma sort_into_sorted rp l r :
  Sorted (flip (le_by lt)) rp → sort_into lt rp l = Ok r → Sorted (flip (le_by lt)) r.
Proof.
  revert rp r. induction l as [|x l IH]; simpl; intros rp r Hs.
  - by intros [= <-].
  - intros (rp' & Hrp' & H)%bind_Ok.
    eapply IH; [|done]. by eapply insert_desc_sorted.
Qed.

Lemma sorted_by_sorted l r : sorted_by lt l = Ok r → Sorted (le_by lt) r ∧ r ≡ₚ l.
Proof.
  unfold sorted_by. intros (rp & Hrp & [= <-])%bind_Ok. split.
  - apply (Sorted_reverse (flip (le_by lt))).
    eapply sort_into_sorted; [|done]. constructor.
  - rewrite reverse_Permutation, (sort_into_perm _ _ _ Hrp). by rewrite app_nil_r.
Qed.
End SortedFacts.

Lemma Sorted_adjacent {A} (R : relation A) (l1 l2 : list A) (a b : A) :
  Sorted R (l1 ++ a :: b :: l2) → R a b.
Proof.
  induction l1 as [|x l1 IH]; simpl; intros [Hs Hhd]%Sorted_inv.
  - by apply HdRel_inv in Hhd.
  - by apply IH.
Qed.

(** A list already in order is returned as it is: each member is compared
    with its predecessor only. *)
Lemma sort_into_ascending {A} (lt : A → A → result bool) (rp l : list A) :
  Sorted (le_by lt) (reverse rp ++ l) → sort_into lt rp l = Ok (reverse l ++ rp).
Proof.
  revert rp. induction l as [|x l IH]; intros rp Hs; [done|].
  simpl. assert (insert_desc lt x rp = Ok (x :: rp)) as ->.
  { destruct rp as [|y rp]; [done|]. simpl.
    rewrite reverse_cons, <- app_assoc in Hs. simpl in Hs.
    apply Sorted_adjacent in Hs. unfold le_by in Hs. by rewrite Hs. }
  simpl. rewrite IH.
  - by rewrite reverse_cons, <- app_assoc.
  - by rewrite reverse_cons, <- app_assoc.
Qed.

Lemma sorted_by_ascending {A} (lt : A → A → result bool) (l : list A) :
  Sorted (le_by lt) l → sorted_by lt l = Ok l.
Proof.
  intros Hs. unfold sorted_by. rewrite (sort_into_ascending lt [] l) by done.
  simpl. by rewrite app_nil_r, reverse_involutive.
Qed.

Lemma sorted_by_returns {A} (lt : A → A → result bool) (l : list A) :
  orderable_by lt l = true → ∃ r, sorted_by lt l = Ok r.
Proof.
  intros Hl. destruct (sort_into_returns lt [] l Hl) as [rp Hrp].
  { intros ?? _ []%elem_of_nil. }
  exists (reverse rp). unfold sorted_by. by rewrite Hrp.
Qed.

(** When [<=] is transitive on the members, every member is below all the
    later ones. *)
Lemma Sorted_StronglySorted_on {A} (R : relation A) (l : list A) :
  (∀ x y z, x ∈ l → y ∈ l → z ∈ l → R x y → R y z → R x z) →
  Sorted R l → StronglySorted R l.
Proof.
  induction l as [|x l IH]; intros Htr Hs; [constructor|].
  apply Sorted_inv in Hs as [Hs Hhd].
  assert (StronglySorted R l) as Hss.
  { apply IH; [|done]. intros a b c ???. apply Htr; by right. }
  constructor; [done|].
  destruct l as [|y l]; [constructor|].
  apply HdRel_inv in Hhd. apply StronglySorted_inv in Hss as [_ Hy].
  constructor; [done|].
  apply Forall_forall. intros z Hz.
  apply (Htr x y z); [left|right; left|by do 2 right|done|].
  rewrite Forall_forall in Hy. by apply Hy.
Qed.

(** ** [sort_internal_lists] *)

Lemma sorted_raises (l : list value) (e : exn) : sorted l = Raise e → e = TypeError.
Proof.
  unfold sorted, sorted_by.
  intros [H|(? & ? & ?)]%bind_Raise; [|done].
  apply sort_into_raise in H as (x & y & H). by eapply py_lt_raises.
Qed.

Lemma sorted_raises_unorderable (l : list value) (e : exn) :
  sorted l = Raise e → orderable l = false.
Proof.
  intros H. destruct (orderable l) eqn:Hl; [|done].
  destruct (sorted_by_returns py_lt l Hl) as [r Hr].
  unfold sorted in H. congruence.
Qed.

Lemma dict_set_middle {V} (k : string) (v v0 : V) (d1 d2 : list (string * V)) :
  k ∉ dict_keys d1 → dict_set k v (d1 ++ (k, v0) :: d2) = d1 ++ (k, v) :: d2.
Proof.
  unfold dict_keys. induction d1 as [|[k1 v1] d1 IH]; simpl; intros Hk.
  - by rewrite String.eqb_refl.
  - apply not_elem_of_cons in Hk as [Hne Hk].
    apply String.eqb_neq in Hne. rewrite Hne. by rewrite IH.
Qed.

Section StoreEachFacts.
Variable normalise : value → result value.

Let entry (kv : string * value) : result (string * value) :=
  v ← normalise kv.2; Ok (kv.1, v).

Lemma store_each_traverse (seen items : dict) :
  NoDup (dict_keys (seen ++ items)) →
  store_each normalise items (seen ++ items) = (seen ++.) <$> traverse entry items.
Proof.
  subst entry. revert seen. induction items as [|[k v] items IH]; intros seen Hnd.
  - simpl. by rewrite app_nil_r.
  - simpl. destruct (normalise v) as [v'|e]; simpl; [|done].
    rewrite dict_set_middle.
    + rewrite (cons_middle _ seen items), app_assoc, IH.
      * destruct (traverse _ items); simpl; [|done].
        by rewrite <- app_assoc.
      * revert Hnd. unfold dict_keys. rewrite !fmap_app. simpl.
        by rewrite <- app_assoc.
    + revert Hnd. unfold dict_keys. rewrite fmap_app. simpl.
      intros Hnd%NoDup_app. destruct Hnd as (_ & Hd & _).
      intros Hk. apply (Hd _ Hk). left.
Qed.

Lemma store_each_raise (items d : dict) (e : exn) :
  store_each normalise items d = Raise e → ∃ kv, kv ∈ items ∧ normalise kv.2 = Raise e.
Proof.
  revert d. induction items as [|[k v] items IH]; simpl; intros d; [done|].
  destruct (normalise v) as [v'|e'] eqn:Hv.
  - intros (kv & ? & ?)%IH. exists kv. split; [by right|done].
  - intros [= ->]. exists (k, v). split; [left|done].
Qed.

Lemma traverse_entry_keys (items items' : dict) :
  traverse entry items = Ok items' →
  Forall2 (λ kv kv', kv'.1 = kv.1 ∧ normalise kv.2 = Ok kv'.2) items items'.
Proof.
  revert items'. induction items as [|[k v] items IH]; simpl; intros items'.
  - intros [= <-]. constructor.
  - intros (kv' & Hkv' & (rest & Hrest & [= <-])%bind_Ok)%bind_Ok.
    unfold entry in Hkv'. simpl in Hkv'.
    apply bind_Ok in Hkv' as (v' & Hv' & [= <-]).
    constructor; [done|]. by apply IH.
Qed.
End StoreEachFacts.

Lemma traverse_returns {A B} (k : A → result B) (l : list A) :
  Forall (λ x, returns (k x) = true) l → returns (traverse k l) = true.
Proof.
  induction 1 as [|x l Hx _ IH]; simpl; [done|].
  destruct (k x); [|done]. simpl. by destruct (traverse k l).
Qed.

(** On integers [<=] is the usual order, which is total. *)
Lemma py_le_int (a b : Z) : py_le (VInt a) (VInt b) ↔ a ≤ b.
Proof.
  unfold py_le, le_by. simpl. split.
  - intros [= H]. lia.
  - intros H. f_equal. lia.
Qed.

Lemma py_le_ints_total_order (zs : list Z) :
  (∀ x y z, x ∈ VInt <$> zs → y ∈ VInt <$> zs → z ∈ VInt <$> zs →
     py_le x y → py_le y z → py_le x z)
  ∧ (∀ x y, x ∈ VInt <$> zs → y ∈ VInt <$> zs → py_le x y → py_le y x → x = y).
Proof.
  split.
  - intros x y z (a & -> & _)%list_elem_of_fmap (b & -> & _)%list_elem_of_fmap
      (c & -> & _)%list_elem_of_fmap. rewrite !py_le_int. lia.
  - intros x y (a & -> & _)%list_elem_of_fmap (b & -> & _)%list_elem_of_fmap.
    rewrite !py_le_int. intros. f_equal. lia.
Qed.

(** Before an exception of [<] ends it, the sort compares each member with
    its predecessor, from the left, as long as the answer is [False]. *)
Lemma sort_into_run_raises {A} (lt : A → A → result bool) (x : A) (rp l : list A) :
  run_raises_by lt (x :: l) = true → ∃ e, sort_into lt (x :: rp) l = Raise e.
Proof.
  revert x rp. induction l as [|y l IH]; intros x rp; [done|].
  cbn [run_raises_by sort_into insert_desc].
  destruct (lt y x) as [[]|e]; [done| |by eauto].
  intros Hrun. cbn. by apply IH.
Qed.

Lemma sorted_run_raises (l : list value) :
  run_raises l = true → sorted l = Raise TypeError.
Proof.
  destruct l as [|x l]; [done|]. intros Hrun.
  destruct (sort_into_run_raises py_lt x [] l Hrun) as [e He].
  assert (sorted (x :: l) = Raise e) as Hs.
  { unfold sorted, sorted_by. cbn [sort_into insert_desc]. cbn. by rewrite He. }
  by rewrite Hs, (sorted_raises _ _ Hs).
Qed.




(** C5: for a dictionary [M] (its keys are distinct), [sort_internal_lists]
    treats the entries one by one, in order: when it returns, the result is a
    dictionary with the same keys in the same order, each holding the
    normalised form of the value it held before; it returns whenever every
    value can be normalised. *)
Theorem sort_internal_lists_mapping (M : dict) :
  NoDup (dict_keys M) →
  sort_internal_lists (VDict M) = VDict <$> traverse normalize_entry M
  ∧ (∀ r, sort_internal_lists (VDict M) = Ok r →
       ∃ M', r = VDict M' ∧ dict_keys M' = dict_keys M
             ∧ Forall2 (λ kv kv', kv'.1 = kv.1 ∧ sort_internal_lists kv.2 = Ok kv'.2) M M')
  ∧ (Forall (λ kv, returns (sort_internal_lists kv.2) = true) M →
     returns (sort_internal_lists (VDict M)) = true).
Proof.
  intros Hnd.
  assert (sort_internal_lists (VDict M) = VDict <$> traverse normalize_entry M) as Heq.
  { change (sort_internal_lists (VDict M))
      with (VDict <$> store_each sort_internal_lists M ([] ++ M)).
    rewrite (store_each_traverse sort_internal_lists [] M Hnd).
    unfold normalize_entry. by destruct (traverse _ M). }
  split; [done|]. split.
  - intros r. rewrite Heq. intros (M' & HM' & ->)%fmap_Ok.
    exists M'. split; [done|].
    pose proof (traverse_entry_keys sort_internal_lists M M' HM') as HF.
    split; [|done]. unfold dict_keys. clear -HF.
    induction HF as [|kv kv' M M' [Hk _] _ IH]; [done|].
    rewrite !fmap_cons. by f_equal.
  - intros Hall. rewrite Heq.
    assert (returns (traverse normalize_entry M) = true) as Hr.
    { apply traverse_returns. eapply Forall_impl; [exact Hall|].
      intros kv. unfold normalize_entry. by destruct (sort_internal_lists kv.2). }
    by destruct (traverse normalize_entry M).
Qed.

Lemma sort_internal_lists_mapping_witness :
  let M := [("b", VList [VInt 2; VInt 1]); ("a", VStr "x")] in
  NoDup (dict_keys M)
  ∧ sort_internal_lists (VDict M) = VDict <$> traverse normalize_entry M
  ∧ (∀ r, sort_internal_lists (VDict M) = Ok r →
       ∃ M', r = VDict M' ∧ dict_keys M' = dict_keys M
             ∧ Forall2 (λ kv kv', kv'.1 = kv.1 ∧ sort_internal_lists kv.2 = Ok kv'.2) M M')
  ∧ (Forall (λ kv, returns (sort_internal_lists kv.2) = true) M →
     returns (sort_internal_lists (VDict M)) = true).
Proof.
  intros M.
  assert (NoDup (dict_keys M)) as Hnd.
  { apply (bool_decide_unpack (NoDup ["b"; "a"])). reflexivity. }
  split; [exact Hnd|].
  exact (sort_internal_lists_mapping M Hnd).
Defined.

Lemma store_each_returns (normalise : value → result value) (items d : dict) :
  Forall (λ kv, returns (normalise kv.2) = true) items →
  returns (store_each normalise items d) = true.
Proof.
  intros H. revert d. induction H as [|[k v] items Hkv _ IH]; intros d; [done|].
  simpl in *. destruct (normalise v); [apply IH|done].
Qed.

Lemma store_each_raises (normalise : value → result value) (items d : dict)
    (kv : string * value) (e : exn) :
  kv ∈ items → normalise kv.2 = Raise e →
  ∃ e', store_each normalise items d = Raise e'.
Proof.
  intros Hkv Hraise. revert d.
  induction items as [|[k v] items IH]; intros d; [by apply elem_of_nil in Hkv|].
  cbn [store_each]. destruct (normalise v) as [v'|e'] eqn:Hv; [|by eauto].
  apply elem_of_cons in Hkv as [->|Hkv]; [|by apply IH].
  cbn in Hraise. congruence.
Qed.

Lemma elem_of_visited_lists_dict (d : dict) (l : list value) :
  l ∈ visited_lists (VDict d) ↔ ∃ kv, kv ∈ d ∧ l ∈ visited_lists kv.2.
Proof.
  cbn [visited_lists]. rewrite list_elem_of_In, in_flat_map.
  split; intros (kv & Hkv & Hl); exists kv; by rewrite ?list_elem_of_In in *.
Qed.

(** C6, as amended: [sort_internal_lists] fails with the comparison error
    [TypeError] when, in a list or set that it sorts, a member cannot be
    ordered with its predecessor and no member before it is below its own
    predecessor, as when the first two members cannot be ordered; it fails
    with no other error, and only when a list or set that it sorts holds two
    members that [<] cannot order; on every input without such a list or
    set nested in it, it returns. *)
Theorem sort_internal_lists_failure (data : value) :
  (∀ l, l ∈ visited_lists data → run_raises l = true →
     sort_internal_lists data = Raise TypeError)
  ∧ (∀ e, sort_internal_lists data = Raise e →
       e = TypeError
       ∧ (∃ l, l ∈ visited_lists data ∧ orderable l = false)
       ∧ has_unorderable data = true)
  ∧ (has_unorderable data = false → returns (sort_internal_lists data) = true).
Proof.
  assert (∀ l l', l' ∈ [l] → run_raises l' = true →
            VList <$> sorted l = Raise TypeError) as Hwhen.
  { intros l l' ->%list_elem_of_singleton Hrun. by rewrite (sorted_run_raises l Hrun). }
  assert (∀ l e, VList <$> sorted l = Raise e →
            e = TypeError
            ∧ (∃ l', l' ∈ [l] ∧ orderable l' = false)
            ∧ negb (orderable l) || existsb has_unorderable l = true) as Hseq.
  { intros l e H%fmap_Raise. pose proof (sorted_raises_unorderable l e H) as Hl.
    split; [by eapply sorted_raises|]. split; [|by rewrite Hl].
    exists l. split; [left|done]. }
  assert (∀ l, negb (orderable l) || existsb has_unorderable l = false →
            returns (VList <$> sorted l) = true) as Hret.
  { intros l [Hl%negb_false_iff _]%orb_false_iff.
    destruct (sorted_by_returns py_lt l Hl) as [r Hr]. unfold sorted. by rewrite Hr. }
  induction data as [| | | |l IH|l IH|l IH|d IH] using value_nested_ind;
    try (by split; [intros ? Hin; by apply elem_of_nil in Hin|split; [intros e [=]|]]).
  - split; [apply Hwhen|]. split; [apply Hseq|apply Hret].
  - split; [apply Hwhen|]. split; [apply Hseq|apply Hret].
  - rewrite Forall_forall in IH.
    assert (∀ e, sort_internal_lists (VDict d) = Raise e →
              e = TypeError
              ∧ (∃ l, l ∈ visited_lists (VDict d) ∧ orderable l = false)
              ∧ has_unorderable (VDict d) = true) as Honly.
    { intros e H. simpl in H. apply fmap_Raise, store_each_raise in H as (kv & Hkv & H).
      destruct (IH kv Hkv) as (_ & IHe & _).
      destruct (IHe e H) as (-> & (l & Hl & Hord) & Hu). split; [done|]. split.
      - exists l. split; [|done]. apply elem_of_visited_lists_dict. eauto.
      - simpl. apply existsb_exists. exists kv. split; [by apply list_elem_of_In|done]. }
    split; [|split; [exact Honly|]].
    + intros l (kv & Hkv & Hl)%elem_of_visited_lists_dict Hrun.
      destruct (IH kv Hkv) as (IHwhen & _ & _).
      destruct (store_each_raises sort_internal_lists d d kv TypeError Hkv
                  (IHwhen l Hl Hrun)) as [e He].
      assert (sort_internal_lists (VDict d) = Raise e) as Hd
        by (cbn [sort_internal_lists]; by rewrite He).
      by rewrite Hd, (proj1 (Honly e Hd)).
    + intros Hu. simpl in Hu.
      assert (Forall (λ kv, returns (sort_internal_lists kv.2) = true) d) as Hall.
      { apply Forall_forall. intros kv Hkv.
        apply (IH kv Hkv). destruct (has_unorderable kv.2) eqn:Hkv2; [|done].
        rewrite <- Hu. symmetry. apply existsb_exists.
        exists kv. split; [by apply list_elem_of_In|done]. }
      pose proof (store_each_returns sort_internal_lists d d Hall) as Hr.
      simpl. by destruct (store_each sort_internal_lists d d).
Qed.

(** The list under ["k"] starts with [1] and ["a"], which cannot be
    ordered: the call ends with [TypeError]. *)
Lemma sort_internal_lists_failure_witness :
  let data := VDict [("k", VList [VInt 1; VStr "a"])] in
  [VInt 1; VStr "a"] ∈ visited_lists data
  ∧ run_raises [VInt 1; VStr "a"] = true
  ∧ sort_internal_lists data = Raise TypeError.
Proof.
  intros data.
  assert ([VInt 1; VStr "a"] ∈ visited_lists data) as Hl by left.
  split; [exact Hl|]. split; [reflexivity|].
  exact (proj1 (sort_internal_lists_failure data) [VInt 1; VStr "a"] Hl eq_refl).
Defined.

(** C6, as stated, fails on two inputs that both return.  On the first,
    a list of three tuples, the first and the last tuple cannot be ordered
    (their comparison reaches [1 < "a"]), but the sort compares each member
    with its predecessor only, and those comparisons answer [False].  On the
    second, the inner list holds [1] and ["a"] and is never sorted, the outer
    list having a single member. *)
Lemma sort_internal_lists_unorderable_returns :
  let x := VTuple [VSet [VInt 1]; VInt 1] in
  let z := VTuple [VSet [VInt 2]] in
  let y := VTuple [VSet [VInt 1]; VStr "a"] in
  let nested := VList [VList [VInt 1; VStr "a"]] in
  (py_lt x y = Raise TypeError
   ∧ has_unorderable (VList [x; z; y]) = true
   ∧ sort_internal_lists (VList [x; z; y]) = Ok (VList [x; z; y]))
  ∧ (py_lt (VInt 1) (VStr "a") = Raise TypeError
     ∧ has_unorderable nested = true
     ∧ sort_internal_lists nested = Ok nested).
Proof. repeat split; reflexivity. Qed.

(** ** The pool *)

Lemma traverse_fmap {A B C} (f : A → B) (k : B → result C) (l : list A) :
  traverse k (f <$> l) = traverse (k ∘ f) l.
Proof.
  induction l as [|x l IH]; [done|].
  rewrite fmap_cons. cbn [traverse]. by rewrite IH.
Qed.

Lemma traverse_ext {A B} (k1 k2 : A → result B) (l : list A) :
  (∀ x, x ∈ l → k1 x = k2 x) → traverse k1 l = traverse k2 l.
Proof.
  induction l as [|x l IH]; intros H; simpl; [done|].
  rewrite (H x) by left. rewrite IH; [done|]. intros y Hy. apply H. by right.
Qed.

Section PoolMapFacts.
Context {X Y : Type}.
Variable capacity : nat.
Variable pick : nat → nat.
Variable task : X → result Y.
Variable items : list X.

Let state := @pool_state X Y.
Let live (st : state) : list (nat * X) := pending st ++ running st.

(** Every greenlet that is not finished belongs to an item, and the slot of
    every item either holds the outcome of its task or belongs to a
    greenlet that is not finished. *)
Definition pool_inv (st : state) : Prop :=
  length (slots st) = length items
  ∧ (∀ i x, (i, x) ∈ live st → items !! i = Some x)
  ∧ (∀ i x, items !! i = Some x →
       slots st !! i = Some (Some (task x)) ∨ (i, x) ∈ live st).

Lemma spawn_live (st : state) : live (spawn capacity st) ≡ₚ live st.
Proof.
  unfold live, spawn. simpl.
  set (free := (capacity - length (running st))%nat).
  rewrite <- (take_drop free (pending st)) at 3.
  rewrite (Permutation_app_comm (take free (pending st))).
  rewrite <- !app_assoc. apply Permutation_app; [done|].
  apply Permutation_app_comm.
Qed.

Lemma spawn_inv (st : state) : pool_inv st → pool_inv (spawn capacity st).
Proof.
  intros (Hlen & Hlive & Hslot). split; [done|]. split.
  - intros i x. rewrite spawn_live. apply Hlive.
  - intros i x Hx. rewrite spawn_live. by apply Hslot.
Qed.

Lemma spawn_idle (st : state) :
  (0 < capacity)%nat → running (spawn capacity st) = [] → live (spawn capacity st) = [].
Proof.
  unfold live, spawn. simpl. intros Hcap [Hr Ht]%app_eq_nil.
  rewrite Hr in *. simpl in *. rewrite Nat.sub_0_r in *.
  destruct (pending st) as [|p ps]; [by rewrite drop_nil|].
  destruct capacity; [lia|done].
Qed.

Lemma complete_inv (t : nat) (st : state) :
  pool_inv st → running st ≠ [] →
  pool_inv (complete pick task t st)
  ∧ S (length (live (complete pick task t st))) = length (live st).
Proof.
  intros (Hlen & Hlive & Hslot) Hrun. unfold complete.
  set (j := (pick t mod length (running st))%nat).
  assert (j < length (running st))%nat as Hj.
  { apply Nat.mod_upper_bound. by destruct (running st). }
  destruct (lookup_lt_is_Some_2 _ _ Hj) as [[i x] Hjx]. rewrite Hjx.
  pose proof (delete_Permutation _ _ _ Hjx) as Hperm.
  assert (items !! i = Some x) as Hix.
  { apply Hlive. unfold live. rewrite elem_of_app. right.
    by eapply list_elem_of_lookup_2. }
  split; [split; [|split]|]; simpl.
  - by rewrite length_insert.
  - intros i' x' Hin. apply Hlive. unfold live in *. simpl in Hin.
    rewrite Hperm. rewrite elem_of_app in *. rewrite elem_of_cons. tauto.
  - intros i' x' Hx'. destruct (decide (i = i')) as [<-|Hne].
    + left. assert (x' = x) as -> by congruence.
      apply list_lookup_insert_eq. rewrite Hlen. by eapply lookup_lt_Some.
    + rewrite list_lookup_insert_ne by done.
      destruct (Hslot i' x' Hx') as [?|Hin]; [by left|right].
      unfold live in *. simpl. rewrite Hperm in Hin.
      rewrite elem_of_app in *. rewrite elem_of_cons in Hin.
      destruct Hin as [?|[[= ??]|?]]; [by left|done|by right].
  - unfold live. simpl. rewrite !length_app, length_delete by eauto.
    lia.
Qed.

Lemma pool_run_done (steps t : nat) (st : state) :
  (0 < capacity)%nat → pool_inv st → (length (live st) ≤ steps)%nat →
  pool_inv (pool_run capacity pick task steps t st)
  ∧ live (pool_run capacity pick task steps t st) = [].
Proof.
  intros Hcap. revert t st. induction steps as [|steps IH]; intros t st Hinv Hlen.
  - simpl. split; [done|]. destruct (live st); [done|simpl in Hlen; lia].
  - cbn [pool_run]. pose proof (spawn_inv st Hinv) as Hinv'.
    pose proof (spawn_idle st Hcap) as Hidle.
    pose proof (Permutation_length (spawn_live st)) as Hlen'.
    destruct (running (spawn capacity st)) as [|g gs] eqn:Hrun.
    + split; [exact Hinv'|]. by apply Hidle.
    + destruct (complete_inv t (spawn capacity st) Hinv') as [Hinv'' Hlen''].
      { by rewrite Hrun. }
      apply IH; [done|]. lia.
Qed.

(** With room for at least one greenlet, [Pool.map] is the list
    comprehension over the items, whatever the schedule. *)
Lemma pool_map_traverse :
  (0 < capacity)%nat → pool_map capacity pick task items = traverse task items.
Proof.
  intros Hcap. unfold pool_map.
  set (st0 := {| pending := imap pair items; running := [];
                 slots := replicate (length items) None |}).
  destruct (pool_run_done (length items) 0 st0 Hcap) as [(Hlen & _ & Hslot) Hlive].
  { split; [apply length_replicate|]. split.
    - intros i x. unfold live. simpl. rewrite app_nil_r.
      intros (i' & x' & [= -> ->] & ?)%elem_of_lookup_imap. done.
    - intros i x Hx. right. unfold live. simpl. rewrite app_nil_r.
      by apply (elem_of_lookup_imap_2 pair). }
  { unfold live. simpl. by rewrite app_nil_r, length_imap. }
  set (st := pool_run capacity pick task (length items) 0 st0) in *.
  assert (slots st = (λ x, Some (task x)) <$> items) as Hslots.
  { apply list_eq. intros i. rewrite list_lookup_fmap.
    destruct (items !! i) as [x|] eqn:Hi; simpl.
    - destruct (Hslot i x Hi) as [?|Hin]; [done|].
      rewrite Hlive in Hin. by apply elem_of_nil in Hin.
    - apply lookup_ge_None. rewrite Hlen. by apply lookup_ge_None. }
  apply app_eq_nil in Hlive as [-> ->].
  by rewrite Hslots, traverse_fmap.
Qed.
End PoolMapFacts.

(** ** Dictionaries and [ChainMap] *)

Section DictFacts.
Context {V : Type}.
Implicit Types (d : list (string * V)) (k : string) (v : V).

Lemma dict_get_None k d : dict_get k d = None ↔ k ∉ dict_keys d.
Proof.
  unfold dict_keys. induction d as [|[k' v'] d IH]; simpl.
  - split; [intros _; apply not_elem_of_nil|done].
  - rewrite not_elem_of_cons. destruct (String.eqb_spec k k') as [->|Hne].
    + split; [done|]. by intros [? _].
    + rewrite IH. tauto.
Qed.

Lemma dict_get_set_eq k v d : dict_get k (dict_set k v d) = Some v.
Proof.
  induction d as [|[k' v'] d IH]; simpl.
  - by rewrite String.eqb_refl.
  - destruct (String.eqb_spec k k') as [->|Hne]; simpl.
    + by rewrite String.eqb_refl.
    + apply String.eqb_neq in Hne. by rewrite Hne.
Qed.

Lemma dict_get_set_ne k k' v d : k ≠ k' → dict_get k' (dict_set k v d) = dict_get k' d.
Proof.
  intros Hne. induction d as [|[k1 v1] d IH]; simpl.
  - apply not_eq_sym, String.eqb_neq in Hne. by rewrite Hne.
  - destruct (String.eqb_spec k k1) as [->|Hne1]; simpl.
    + apply not_eq_sym, String.eqb_neq in Hne. by rewrite Hne.
    + by rewrite IH.
Qed.

Lemma dict_keys_set k v d :
  dict_keys (dict_set k v d)
  = if bool_decide (k ∈ dict_keys d) then dict_keys d else dict_keys d ++ [k].
Proof.
  unfold dict_keys. induction d as [|[k' v'] d IH]; [done|].
  cbn [dict_set]. destruct (String.eqb_spec k k') as [->|Hne]; rewrite !fmap_cons; cbn [fst].
  - rewrite bool_decide_eq_true_2; [done|left].
  - rewrite IH. destruct (bool_decide_reflect (k ∈ d.*1)) as [Hin|Hnin].
    + rewrite bool_decide_eq_true_2; [done|by right].
    + rewrite bool_decide_eq_false_2; [done|].
      rewrite not_elem_of_cons. done.
Qed.

Lemma elem_of_dict_keys_set k k' v d :
  k' ∈ dict_keys (dict_set k v d) ↔ k' = k ∨ k' ∈ dict_keys d.
Proof.
  rewrite dict_keys_set. case_bool_decide as Hin.
  - split; [by right|]. by intros [->|?].
  - rewrite elem_of_app, list_elem_of_singleton. tauto.
Qed.

Lemma dict_set_NoDup k v d : NoDup (dict_keys d) → NoDup (dict_keys (dict_set k v d)).
Proof.
  intros Hnd. rewrite dict_keys_set. case_bool_decide as Hin; [done|].
  apply NoDup_app. split; [done|]. split; [|apply NoDup_singleton].
  intros k' Hk' ->%list_elem_of_singleton. done.
Qed.
End DictFacts.

Lemma chain_iter_elem (maps : list dict) (k : string) :
  k ∈ chain_iter maps ↔ ∃ m, m ∈ maps ∧ k ∈ dict_keys m.
Proof.
  unfold chain_iter.
  assert (∀ (ks : list string) (d : dict),
            k ∈ dict_keys (fold_left (λ d k, dict_set k VNone d) ks d)
            ↔ k ∈ ks ∨ k ∈ dict_keys d) as Hinner.
  { induction ks as [|k1 ks IH]; intros d; simpl.
    - rewrite elem_of_nil. tauto.
    - rewrite IH, elem_of_dict_keys_set, elem_of_cons. tauto. }
  assert (∀ (ms : list dict) (d : dict),
            k ∈ dict_keys (fold_left
                  (λ d m, fold_left (λ d k, dict_set k VNone d) (dict_keys m) d) ms d)
            ↔ (∃ m, m ∈ ms ∧ k ∈ dict_keys m) ∨ k ∈ dict_keys d) as Houter.
  { induction ms as [|m ms IH]; intros d; simpl.
    - split; [by right|]. intros [(m & []%elem_of_nil & _)|?]; done.
    - rewrite IH, Hinner. split.
      + intros [(m' & ? & ?)|[?|?]]; [left|left|by right].
        * exists m'. split; [by right|done].
        * exists m. split; [left|done].
      + intros [(m' & [->|?]%elem_of_cons & ?)|?]; [tauto| |tauto].
        left. by exists m'. }
  rewrite Houter. unfold dict_keys at 3. simpl. rewrite elem_of_nil.
  split.
  - intros [(m & Hm & ?)|[]]. exists m. by rewrite elem_of_reverse in Hm.
  - intros (m & Hm & ?). left. exists m. by rewrite elem_of_reverse.
Qed.

Lemma chain_getitem_Ok (maps : list dict) (k : string) :
  (∃ m, m ∈ maps ∧ k ∈ dict_keys m) → ∃ v, chain_getitem maps k = Ok v.
Proof.
  induction maps as [|m maps IH]; simpl.
  - intros (m & []%elem_of_nil & _).
  - intros (m' & Hm' & Hk). destruct (dict_get k m) as [v|] eqn:Hget; [eauto|].
    apply IH. exists m'. split; [|done].
    apply elem_of_cons in Hm' as [->|?]; [|done].
    by apply dict_get_None in Hget.
Qed.

(** The earliest map that holds the key gives the value. *)
Lemma chain_getitem_earliest (maps : list dict) (k : string) (i : nat) (m : dict) (v : value) :
  maps !! i = Some m → dict_get k m = Some v →
  (∀ j m', (j < i)%nat → maps !! j = Some m' → dict_get k m' = None) →
  chain_getitem maps k = Ok v.
Proof.
  revert i. induction maps as [|m0 maps IH]; intros i Hi Hget Hbefore; [done|].
  destruct i as [|i]; simpl in *.
  - injection Hi as ->. by rewrite Hget.
  - rewrite (Hbefore 0%nat m0) by (done || lia).
    apply (IH i); [done..|].
    intros j m' Hj Hm'. apply (Hbefore (S j) m'); [lia|done].
Qed.

Lemma chain_getitem_missing (maps : list dict) (k : string) :
  (∀ m, m ∈ maps → dict_get k m = None) → chain_getitem maps k = Raise KeyError.
Proof.
  induction maps as [|m maps IH]; intros H; simpl; [done|].
  rewrite (H m) by left. apply IH. intros m' Hm'. apply H. by right.
Qed.

Lemma dict_fill_spec (maps : list dict) (keys : list string) (d : dict) :
  (∀ k, k ∈ keys → ∃ v, chain_getitem maps k = Ok v) →
  NoDup (dict_keys d) →
  ∃ d', dict_fill maps keys d = Ok d'
        ∧ NoDup (dict_keys d')
        ∧ ∀ k, dict_get k d' =
               if bool_decide (k ∈ keys) then
                 match chain_getitem maps k with Ok v => Some v | Raise _ => None end
               else dict_get k d.
Proof.
  revert d. induction keys as [|k0 keys IH]; intros d Hkeys Hnd; cbn [dict_fill].
  - exists d. split; [done|]. split; [done|]. intros k.
    rewrite bool_decide_eq_false_2; [done|apply not_elem_of_nil].
  - destruct (Hkeys k0) as [v0 Hv0]; [left|]. rewrite Hv0. simpl.
    destruct (IH (dict_set k0 v0 d)) as (d' & Hfill & Hnd' & Hget).
    { intros k Hk. apply Hkeys. by right. }
    { by apply dict_set_NoDup. }
    exists d'. split; [done|]. split; [done|]. intros k. rewrite Hget.
    destruct (bool_decide_reflect (k ∈ keys)) as [Hin|Hnin].
    + rewrite bool_decide_eq_true_2; [done|by right].
    + destruct (decide (k = k0)) as [->|Hne].
      * rewrite bool_decide_eq_true_2 by left. by rewrite dict_get_set_eq, Hv0.
      * rewrite bool_decide_eq_false_2.
        -- by rewrite dict_get_set_ne.
        -- rewrite not_elem_of_cons. done.
Qed.

(** ** [parallel_call] *)

(** With a pool of at least one slot, [parallel_call] is the list
    comprehension of its per-item results, folded as asked, whatever the
    order in which the greenlets complete. *)
Lemma parallel_call_results (pick : nat → nat) (function : callable) (args : list value)
    (repeatable_args : option (list value)) (fold_list fold_dict force_starmap : bool)
    (pool_size : Z) :
  1 ≤ pool_size →
  parallel_call pick function args repeatable_args fold_list fold_dict force_starmap pool_size
  = results ← traverse (per_item function repeatable_args force_starmap) args;
    if fold_list then VList <$> chain_from_iterable results
    else if fold_dict then VDict <$> dict_of_chainmap results
    else Ok (VList results).
Proof.
  intros Hsize. unfold parallel_call, Pool.
  destruct (Z.ltb_spec pool_size 0) as [|_]; [lia|]. cbn [mbind result_bind].
  assert (0 < Z.to_nat pool_size)%nat as Hcap by lia.
  assert ((if truthy repeatable_args then
             pool_map (Z.to_nat pool_size) pick (star function)
               (zip_repeat args (default [] repeatable_args))
           else if force_starmap then
             pool_map (Z.to_nat pool_size) pick (star function) args
           else pool_map (Z.to_nat pool_size) pick (λ a, function [a]) args)
          = traverse (per_item function repeatable_args force_starmap) args) as ->; [|done].
  rewrite !pool_map_traverse by done.
  destruct repeatable_args as [[|r reps]|]; simpl.
  - destruct force_starmap; by apply traverse_ext.
  - unfold zip_repeat. rewrite traverse_fmap. by apply traverse_ext.
  - destruct force_starmap; by apply traverse_ext.
Qed.

(** C2: with a pool of at least one slot and no folding, [parallel_call]
    returns the list of the results of [function] on the members of [args],
    in the order of [args], for every order in which the greenlets complete;
    doubling [1, 2, 3, 4, 5] gives [2, 4, 6, 8, 10]. *)
Theorem parallel_call_preserves_order (pick : nat → nat) (pool_size : Z) :
  1 ≤ pool_size →
  (∀ (function : callable) (args : list value),
     parallel_call pick function args None false false false pool_size
     = VList <$> traverse (λ a, function [a]) args)
  ∧ parallel_call pick times_two (VInt <$> [1; 2; 3; 4; 5]) None false false false pool_size
    = Ok (VList (VInt <$> [2; 4; 6; 8; 10])).
Proof.
  intros Hsize.
  assert (∀ function args,
            parallel_call pick function args None false false false pool_size
            = VList <$> traverse (λ a, function [a]) args) as Hgen.
  { intros function args. rewrite parallel_call_results by done.
    cbn [per_item]. by destruct (traverse _ args). }
  split; [done|]. by rewrite Hgen.
Qed.

Lemma parallel_call_preserves_order_witness :
  1 ≤ 3
  ∧ (∀ (function : callable) (args : list value),
       parallel_call (λ t, (2 * t + 1)%nat) function args None false false false 3
       = VList <$> traverse (λ a, function [a]) args)
  ∧ parallel_call (λ t, (2 * t + 1)%nat) times_two (VInt <$> [1; 2; 3; 4; 5])
                  None false false false 3
    = Ok (VList (VInt <$> [2; 4; 6; 8; 10])).
Proof.
  split; [lia|]. apply (parallel_call_preserves_order (λ t, (2 * t + 1)%nat) 3). lia.
Defined.

Lemma chain_from_iterable_sequences (rs : list value) (ls : list (list value)) :
  Forall2 is_sequence_of rs ls → chain_from_iterable rs = Ok (List.concat ls).
Proof.
  unfold chain_from_iterable.
  assert (Forall2 is_sequence_of rs ls → traverse py_iter rs = Ok ls) as H.
  { induction 1 as [|r l rs ls [->| ->] _ IH]; simpl; [done|by rewrite IH..]. }
  intros HF. by rewrite (H HF).
Qed.

(** C3: with [fold_list] set and every per-item result a sequence,
    [parallel_call] returns the concatenation of the per-item results in the
    order of [args]; with the identity on [[1], [2, 3], []] it returns
    [1, 2, 3]. *)
Theorem parallel_call_fold_list (pick : nat → nat) (pool_size : Z) :
  1 ≤ pool_size →
  (∀ (function : callable) (args : list value) (repeatable_args : option (list value))
     (fold_dict force_starmap : bool) (rs : list value) (ls : list (list value)),
     traverse (per_item function repeatable_args force_starmap) args = Ok rs →
     Forall2 is_sequence_of rs ls →
     parallel_call pick function args repeatable_args true fold_dict force_starmap pool_size
     = Ok (VList (List.concat ls)))
  ∧ parallel_call pick identity
      [VList [VInt 1]; VList [VInt 2; VInt 3]; VList []] None true false false pool_size
    = Ok (VList [VInt 1; VInt 2; VInt 3]).
Proof.
  intros Hsize.
  assert (∀ function args repeatable_args fold_dict force_starmap rs ls,
     traverse (per_item function repeatable_args force_starmap) args = Ok rs →
     Forall2 is_sequence_of rs ls →
     parallel_call pick function args repeatable_args true fold_dict force_starmap pool_size
     = Ok (VList (List.concat ls))) as Hgen.
  { intros function args reps fd fs rs ls Hrs Hls.
    rewrite parallel_call_results, Hrs by done. cbn [mbind result_bind].
    by rewrite (chain_from_iterable_sequences rs ls Hls). }
  split; [done|].
  apply (Hgen _ _ _ _ _ [VList [VInt 1]; VList [VInt 2; VInt 3]; VList []]
              [[VInt 1]; [VInt 2; VInt 3]; []]); [done|].
  repeat constructor.
Qed.

Lemma parallel_call_fold_list_witness :
  1 ≤ 32
  ∧ (∀ (function : callable) (args : list value) (repeatable_args : option (list value))
       (fold_dict force_starmap : bool) (rs : list value) (ls : list (list value)),
       traverse (per_item function repeatable_args force_starmap) args = Ok rs →
       Forall2 is_sequence_of rs ls →
       parallel_call (λ t, t) function args repeatable_args true fold_dict force_starmap 32
       = Ok (VList (List.concat ls)))
  ∧ parallel_call (λ t, t) identity
      [VList [VInt 1]; VList [VInt 2; VInt 3]; VList []] None true false false 32
    = Ok (VList [VInt 1; VInt 2; VInt 3]).
Proof.
  split; [lia|]. apply (parallel_call_fold_list (λ t, t) 32). lia.
Defined.

Lemma traverse_as_dict (ds : list dict) : traverse as_dict (VDict <$> ds) = Ok ds.
Proof.
  induction ds as [|d ds IH]; [done|].
  rewrite fmap_cons. cbn [traverse as_dict mbind result_bind]. by rewrite IH.
Qed.

Lemma elem_of_ChainMap (ds : list dict) (m : dict) :
  m ∈ ChainMap ds → m ∈ ds ∨ (ds = [] ∧ m = []).
Proof.
  destruct ds as [|d ds]; simpl; [|by left].
  intros ->%list_elem_of_singleton. by right.
Qed.

(** [dict] of a [ChainMap]: a key has the value of the earliest map that
    holds it, and no key comes from elsewhere. *)
Lemma dict_of_chainmap_earliest (ds : list dict) :
  ∃ merged, dict_of_chainmap (VDict <$> ds) = Ok merged
    ∧ NoDup (dict_keys merged)
    ∧ (∀ k i d v, ds !! i = Some d → dict_get k d = Some v →
         (∀ j d', (j < i)%nat → ds !! j = Some d' → dict_get k d' = None) →
         dict_get k merged = Some v)
    ∧ (∀ k, (∀ d, d ∈ ds → dict_get k d = None) → dict_get k merged = None).
Proof.
  unfold dict_of_chainmap. rewrite traverse_as_dict. cbn [mbind result_bind].
  destruct (dict_fill_spec (ChainMap ds) (chain_iter (ChainMap ds)) [])
    as (merged & Hfill & Hnd & Hget).
  { intros k Hk. by apply chain_getitem_Ok, chain_iter_elem. }
  { constructor. }
  exists merged. split; [done|]. split; [done|]. split.
  - intros k i d v Hi Hd Hbefore. rewrite Hget.
    assert (ChainMap ds = ds) as -> by (by destruct ds).
    rewrite (chain_getitem_earliest ds k i d v) by done.
    rewrite bool_decide_eq_true_2; [done|].
    apply chain_iter_elem. exists d. split; [by eapply list_elem_of_lookup_2|].
    destruct (decide (k ∈ dict_keys d)) as [|Hnin]; [done|].
    apply dict_get_None in Hnin. congruence.
  - intros k Hnone. rewrite Hget. rewrite bool_decide_eq_false_2; [done|].
    intros (m & Hm & Hk)%chain_iter_elem.
    apply elem_of_ChainMap in Hm as [Hm|[_ ->]].
    + apply Hnone, dict_get_None in Hm. done.
    + by apply elem_of_nil in Hk.
Qed.

(** C1, as amended: with [fold_dict] set (and [fold_list] not set) and every
    per-item result a dictionary, [parallel_call] returns one dictionary; a key
    held by several per-item results keeps the value of the earliest of them in
    the order of [args], and a key that no result holds is absent. *)
Theorem parallel_call_fold_dict (pick : nat → nat) (function : callable)
    (args : list value) (repeatable_args : option (list value)) (force_starmap : bool)
    (pool_size : Z) (ds : list dict) :
  1 ≤ pool_size →
  traverse (per_item function repeatable_args force_starmap) args = Ok (VDict <$> ds) →
  ∃ merged,
    parallel_call pick function args repeatable_args false true force_starmap pool_size
    = Ok (VDict merged)
    ∧ NoDup (dict_keys merged)
    ∧ (∀ k i d v, ds !! i = Some d → dict_get k d = Some v →
         (∀ j d', (j < i)%nat → ds !! j = Some d' → dict_get k d' = None) →
         dict_get k merged = Some v)
    ∧ (∀ k, (∀ d, d ∈ ds → dict_get k d = None) → dict_get k merged = None).
Proof.
  intros Hsize Hds.
  destruct (dict_of_chainmap_earliest ds) as (merged & Hm & Hrest).
  exists merged. split; [|done].
  rewrite parallel_call_results, Hds by done. cbn [mbind result_bind].
  by rewrite Hm.
Qed.

Lemma parallel_call_fold_dict_witness :
  let ds := [[("a", VInt 1)]; [("a", VInt 2); ("b", VInt 3)]] in
  1 ≤ 32
  ∧ traverse (per_item identity None false) (VDict <$> ds) = Ok (VDict <$> ds)
  ∧ ∃ merged,
      parallel_call (λ t, t) identity (VDict <$> ds) None false true false 32
      = Ok (VDict merged)
      ∧ NoDup (dict_keys merged)
      ∧ (∀ k i d v, ds !! i = Some d → dict_get k d = Some v →
           (∀ j d', (j < i)%nat → ds !! j = Some d' → dict_get k d' = None) →
           dict_get k merged = Some v)
      ∧ (∀ k, (∀ d, d ∈ ds → dict_get k d = None) → dict_get k merged = None).
Proof.
  intros ds. split; [lia|]. split; [reflexivity|].
  apply (parallel_call_fold_dict (λ t, t) identity (VDict <$> ds) None false 32 ds);
    [lia|reflexivity].
Defined.

(** C1, as stated, fails: the two per-item results both hold the key ["a"],
    and the merged dictionary keeps the value [1] of the earlier item, not the
    value [2] of the later one. *)
Lemma parallel_call_fold_dict_keeps_earlier :
  parallel_call (λ t, t) identity
    [VDict [("a", VInt 1)]; VDict [("a", VInt 2); ("b", VInt 3)]]
    None false true false 32
  = Ok (VDict [("a", VInt 1); ("b", VInt 3)])
  ∧ dict_get "a" [("a", VInt 1); ("b", VInt 3)] ≠ Some (VInt 2).
Proof. split; [reflexivity|discriminate]. Qed.

(** C10: an empty [repeatable_args] is false like an omitted one: the call
    is the call without [repeatable_args], and with a pool of at least one
    slot each invocation receives the member of [args] alone (unpacked when
    [force_starmap] is set) and nothing after it. *)
Theorem parallel_call_empty_repeatable_args (pick : nat → nat) (function : callable)
    (args : list value) (fold_list fold_dict force_starmap : bool) (pool_size : Z) :
  parallel_call pick function args (Some []) fold_list fold_dict force_starmap pool_size
  = parallel_call pick function args None fold_list fold_dict force_starmap pool_size
  ∧ (1 ≤ pool_size →
     parallel_call pick function args (Some []) fold_list fold_dict force_starmap pool_size
     = results ← traverse (λ a, if force_starmap then star function a else function [a]) args;
       if fold_list then VList <$> chain_from_iterable results
       else if fold_dict then VDict <$> dict_of_chainmap results
       else Ok (VList results)).
Proof.
  split; [done|]. intros Hsize. by rewrite parallel_call_results.
Qed.

(** ** [get_file_hash] *)

Lemma file_read_raises (n : Z) (rest : bytes) (e : exn) :
  file_read n rest = Raise e ↔ n < -1 ∧ e = ValueError.
Proof.
  unfold file_read. destruct (Z.ltb_spec n (-1)).
  - split; [by intros [= <-]|by intros [_ ->]].
  - destruct (n <? 0); (split; [done|lia]).
Qed.

Lemma file_read_app (n : Z) (rest block rest' : bytes) :
  file_read n rest = Ok (block, rest') → block ++ rest' = rest.
Proof.
  unfold file_read. destruct (n <? -1); [done|]. destruct (n <? 0).
  - intros [= <- <-]. apply app_nil_r.
  - intros [= <- <-]. apply take_drop.
Qed.

Lemma file_read_empty (n : Z) (rest rest' : bytes) :
  n ≠ 0 → file_read n rest = Ok ([], rest') → rest = [].
Proof.
  unfold file_read. intros Hn. destruct (n <? -1); [done|].
  destruct (Z.ltb_spec n 0).
  - by intros [= ->].
  - intros [= Ht _]. destruct rest as [|b rest]; [done|].
    destruct (Z.to_nat n) eqn:Hnat; [lia|done].
Qed.

Lemma file_read_length (n : Z) (rest block rest' : bytes) :
  0 < n → file_read n rest = Ok (block, rest') → (length block ≤ Z.to_nat n)%nat.
Proof.
  unfold file_read. intros Hn. destruct (Z.ltb_spec n (-1)); [lia|].
  destruct (Z.ltb_spec n 0); [lia|].
  intros [= <- _]. rewrite length_take. lia.
Qed.

Lemma blocks_of_stop (n : Z) (rest rest' : bytes) :
  file_read n rest = Ok ([], rest') → blocks_of n rest = [].
Proof. intros Hr. funelim (blocks_of n rest); [done|congruence|done]. Qed.

Lemma blocks_of_step (n : Z) (rest block rest' : bytes) :
  block ≠ [] → file_read n rest = Ok (block, rest') →
  blocks_of n rest = block :: blocks_of n rest'.
Proof.
  intros Hb Hr. funelim (blocks_of n rest); [congruence| |congruence].
  rewrite Hread in Hr. by injection Hr as <- <-.
Qed.

Lemma blocks_of_refused (n : Z) (rest : bytes) : n < -1 → blocks_of n rest = [].
Proof.
  intros Hn. funelim (blocks_of n rest); [done| |done].
  pose proof (proj2 (file_read_raises n rest ValueError) (conj Hn eq_refl)). congruence.
Qed.

Lemma blocks_of_concat (n : Z) (rest : bytes) :
  -1 ≤ n → n ≠ 0 → List.concat (blocks_of n rest) = rest.
Proof.
  intros Hlo Hn. funelim (blocks_of n rest).
  - cbn. symmetry. eapply file_read_empty; eauto.
  - cbn. rewrite H by done. exact (file_read_app n rest (b :: bs) rest' Hread).
  - match goal with He : file_read _ _ = Raise _ |- _ =>
      destruct (proj1 (file_read_raises _ _ _) He) as [? _]; lia end.
Qed.

Lemma blocks_of_sizes (n : Z) (rest : bytes) :
  Forall (λ block, block ≠ [] ∧ (0 < n → (length block ≤ Z.to_nat n)%nat))
         (blocks_of n rest).
Proof.
  funelim (blocks_of n rest); [constructor| |constructor].
  constructor; [|done]. split; [done|].
  intros Hn. eapply file_read_length; eauto.
Qed.

Section HashingFacts.
Context {hasher : Type}.
Variable HASH_TO_GENERATE : hasher.
Variable update : hasher → bytes → hasher.
Variable hexdigest : hasher → string.

Lemma hash_loop_blocks (block_size : Z) (hash_operation : hasher) (rest : bytes) :
  -1 ≤ block_size →
  hash_loop update block_size hash_operation rest
  = Ok (fold_left update (blocks_of block_size rest) hash_operation).
Proof.
  intros Hlo. funelim (hash_loop update block_size hash_operation rest).
  - match goal with He : file_read _ _ = Ok ([], _) |- _ =>
      by rewrite (blocks_of_stop _ _ _ He) end.
  - rewrite (blocks_of_step _ _ (b :: bs) _ ltac:(done) Hread). cbn [fold_left].
    match goal with IH : _ → _ = Ok (fold_left _ _ _) |- _ => exact (IH Hlo) end.
  - match goal with He : file_read _ _ = Raise _ |- _ =>
      destruct (proj1 (file_read_raises _ _ _) He) as [? _]; lia end.
Qed.

Lemma hash_loop_refused (block_size : Z) (hash_operation : hasher) (rest : bytes) :
  block_size < -1 →
  hash_loop update block_size hash_operation rest = Raise ValueError.
Proof.
  intros Hn.
  pose proof (proj2 (file_read_raises block_size rest ValueError) (conj Hn eq_refl)) as Hr.
  funelim (hash_loop update block_size hash_operation rest); congruence.
Qed.

(** C7, as amended: for a path that names no file, [get_file_hash] returns
    the empty string and logs one warning, changing nothing else and raising
    nothing; for a file and a [block_size] that is positive or [-1], it
    returns the hex digest of the digest object fed with the blocks that
    successive reads of [block_size] bytes return, which are non-empty, at
    most [block_size] bytes long for a positive [block_size], and add up to
    the contents of the file. *)
Theorem get_file_hash_spec (file_to_hash : string) (block_size : Z) (w : world) :
  (files w file_to_hash = None →
   ∃ w', get_file_hash HASH_TO_GENERATE update hexdigest file_to_hash block_size w
         = (Ok "", w')
         ∧ log w' = log w ++ [(WARNING, "Unable to find " +:+ file_to_hash
                                        +:+ ", no hashes generated")]
         ∧ files w' = files w ∧ sent w' = sent w)
  ∧ (∀ contents, files w file_to_hash = Some contents →
     0 < block_size ∨ block_size = -1 →
     get_file_hash HASH_TO_GENERATE update hexdigest file_to_hash block_size w
     = (Ok (hexdigest (fold_left update (blocks_of block_size contents) HASH_TO_GENERATE)),
        w)
     ∧ Forall (λ block, block ≠ []
                        ∧ (0 < block_size → (length block ≤ Z.to_nat block_size)%nat))
              (blocks_of block_size contents)
     ∧ List.concat (blocks_of block_size contents) = contents).
Proof.
  unfold get_file_hash. split.
  - intros ->. eexists. split; [done|]. done.
  - intros contents -> Hsize. rewrite hash_loop_blocks by lia.
    split; [done|]. split; [apply blocks_of_sizes|apply blocks_of_concat; lia].
Qed.

(** When the digest object does not depend on how its input is cut,
    the digest is that of the whole contents. *)
Hypothesis update_nil : ∀ h, update h [] = h.
Hypothesis update_app : ∀ h b1 b2, update (update h b1) b2 = update h (b1 ++ b2).

Lemma fold_update_concat (blocks : list bytes) (h : hasher) :
  fold_left update blocks h = update h (List.concat blocks).
Proof.
  revert h. induction blocks as [|b blocks IH]; intros h; cbn.
  - by rewrite update_nil.
  - by rewrite IH, update_app.
Qed.

Lemma get_file_hash_whole (file_to_hash : string) (block_size : Z) (w : world)
    (contents : bytes) :
  files w file_to_hash = Some contents → -1 ≤ block_size → block_size ≠ 0 →
  get_file_hash HASH_TO_GENERATE update hexdigest file_to_hash block_size w
  = (Ok (hexdigest (update HASH_TO_GENERATE contents)), w).
Proof.
  intros Hfile Hlo Hn. unfold get_file_hash. rewrite Hfile, hash_loop_blocks by done.
  cbn. by rewrite fold_update_concat, blocks_of_concat.
Qed.
End HashingFacts.

(** C7, as stated, fails on an existing file for two kinds of [block_size].
    The digest object of the example keeps what it is fed and its hex digest
    is that text.  With [block_size = -2] the read raises [ValueError] and
    so does the call; with [block_size = 0] the first read returns nothing
    and the digest is that of no input, not of the contents. *)
Lemma get_file_hash_block_size_refused :
  let w := {| files := λ _, Some [Byte.x61; Byte.x62; Byte.x63]; log := []; sent := [] |} in
  let update := λ (h block : bytes), h ++ block in
  get_file_hash [] update String.string_of_list_byte "AllPrintings.json" (-2) w
  = (Raise ValueError, w)
  ∧ get_file_hash [] update String.string_of_list_byte "AllPrintings.json" 0 w
    = (Ok "", w)
  ∧ get_file_hash [] update String.string_of_list_byte "AllPrintings.json" 2 w
    = (Ok "abc", w).
Proof. repeat split; reflexivity. Qed.

Lemma get_file_hash_spec_witness :
  let contents := [Byte.x61; Byte.x62; Byte.x63] in
  let w := {| files := λ _, Some contents; log := []; sent := [] |} in
  let update := λ (h block : bytes), h ++ block in
  files w "AllPrintings.json" = Some contents
  ∧ (0 < 2 ∨ 2 = -1)
  ∧ get_file_hash [] update String.string_of_list_byte "AllPrintings.json" 2 w
    = (Ok (String.string_of_list_byte (fold_left update (blocks_of 2 contents) [])), w)
  ∧ Forall (λ block, block ≠ [] ∧ (0 < 2 → (length block ≤ Z.to_nat 2)%nat))
           (blocks_of 2 contents)
  ∧ List.concat (blocks_of 2 contents) = contents.
Proof.
  intros contents w update. split; [reflexivity|]. split; [left; lia|].
  apply (proj2 (get_file_hash_spec [] update String.string_of_list_byte
                  "AllPrintings.json" 2 w) contents eq_refl). left. lia.
Defined.

(** ** [send_push_notification] *)

Lemma nonempty_true (s : string) : s ≠ "" → nonempty s = true.
Proof. by destruct s. Qed.

Lemma outcomes_length (service : list request → request → result response)
    (history reqs : list request) :
  length (outcomes service history reqs) = length reqs.
Proof.
  revert history. induction reqs as [|r reqs IH]; intros history; [done|].
  simpl. by rewrite IH.
Qed.

(** The loop goes through the posts as [traverse] does: to the end when
    each brings back a response, up to the first exception otherwise. *)
Lemma traverse_posts_returns (posts : list (result response)) :
  Forall (λ post, returns post = true) posts →
  traverse (λ post, post) posts = Ok (received posts)
  ∧ length (received posts) = length posts.
Proof.
  induction 1 as [|[resp|e] posts Hpost _ [IH IHlen]]; [done| |done].
  cbn [traverse received]. rewrite IH. cbn. by rewrite IHlen.
Qed.

Lemma traverse_posts_received (posts : list (result response)) (resps : list response) :
  traverse (λ post, post) posts = Ok resps → received posts = resps.
Proof.
  revert resps. induction posts as [|[resp|e] posts IH]; intros resps; cbn [traverse].
  - by intros [= <-].
  - intros (? & [= <-] & (ys & Hys & [= <-])%bind_Ok)%bind_Ok.
    cbn [received]. by rewrite (IH ys).
  - done.
Qed.

Lemma traverse_posts_true (posts : list (result response)) (all_succeeded : bool) :
  (λ resps, all_succeeded && forallb ok resps) <$> traverse (λ post, post) posts = Ok true
  ↔ all_succeeded = true ∧ Forall (λ post, succeeded post = true) posts.
Proof.
  revert all_succeeded. induction posts as [|[resp|e] posts IH]; intros acc.
  - cbn. rewrite andb_true_r. split; [by intros [= ->]|by intros [-> _]].
  - assert ((λ resps, acc && forallb ok resps)
              <$> traverse (λ post, post) (Ok resp :: posts)
            = (λ resps, (acc && ok resp) && forallb ok resps)
                <$> traverse (λ post, post) posts) as ->.
    { cbn [traverse]. destruct (traverse (λ post, post) posts); [|done].
      cbn. by rewrite andb_assoc. }
    rewrite IH, Forall_cons, andb_true_iff. cbn [succeeded]. tauto.
  - cbn. split; [done|]. by intros [_ [[=] _]%Forall_cons].
Qed.

Section PushoverFacts.
Variable app_token : string.
Variable user_tokens : string.
Variable MTGJSON_VERSION : string.
Variable service : list request → request → result response.

Let request_for (message : string) : string → request :=
  pushover_request app_token MTGJSON_VERSION message.

(** The loop: its outcome, and the requests it hands to [requests.post],
    which are those of the recipients up to and including the first whose
    post raises. *)
Lemma notify_users_spec (message : string) (users : list string)
    (all_succeeded : bool) (w : world) :
  let reqs := request_for message <$> users in
  let posts := outcomes service (sent w) reqs in
  let out := notify_users app_token MTGJSON_VERSION service message users all_succeeded w in
  out.1 = (λ resps, all_succeeded && forallb ok resps) <$> traverse (λ post, post) posts
  ∧ sent out.2 = sent w ++ take (S (length (received posts))) reqs
  ∧ files out.2 = files w.
Proof.
  revert all_succeeded w. induction users as [|user users IH]; intros acc w.
  - simpl. by rewrite andb_true_r, app_nil_r.
  - cbn [notify_users requests_post]. rewrite fmap_cons. cbn [outcomes].
    fold (pushover_request app_token MTGJSON_VERSION message user).
    fold (request_for message user).
    destruct (service (sent w) (request_for message user)) as [resp|e] eqn:Hpost.
    + cbn [received length]. rewrite firstn_cons. cbn [traverse].
      destruct (ok resp) eqn:Hok; cbn [negb].
      * specialize (IH acc {| files := files w; log := log w;
                              sent := sent w ++ [request_for message user] |}).
        cbn in IH. destruct IH as (-> & -> & ->).
        split; [|by rewrite <- app_assoc].
        destruct (traverse _ _); [|done]. cbn. by rewrite Hok.
      * match goal with |- context [notify_users _ _ _ _ _ false ?w1] =>
          specialize (IH false w1) end.
        cbn in IH. destruct IH as (-> & -> & ->).
        split; [|by rewrite <- app_assoc].
        destruct (traverse _ _); [|done]. cbn. by rewrite Hok, andb_false_r.
    + cbn. by rewrite take_0.
Qed.

(** C8: with an empty application token, [send_push_notification] returns
    [False] after logging a warning, and posts nothing. *)
Theorem send_push_notification_no_token (message : string) (w : world) :
  app_token = "" →
  ∃ w', send_push_notification app_token user_tokens MTGJSON_VERSION service message w
        = (Ok false, w')
        ∧ sent w' = sent w
        ∧ log w' = log w ++ [(WARNING,
                              "Unable to send Pushover notification. App token not set.")].
Proof.
  intros Htok. unfold send_push_notification. rewrite Htok. cbn.
  eexists. split; [done|]. done.
Qed.

(** C9, as amended: with an application token and at least one recipient
    configured, and when every post brings back a response,
    [send_push_notification] posts one request to every recipient, in
    order, whatever the earlier responses were, and returns [True] exactly
    when every response reports a success. *)
Theorem send_push_notification_all_recipients (message : string) (w : world) :
  app_token ≠ "" → recipients user_tokens ≠ [] →
  Forall (λ post, returns post = true)
         (outcomes service (sent w) (request_for message <$> recipients user_tokens)) →
  let reqs := request_for message <$> recipients user_tokens in
  let out := send_push_notification app_token user_tokens MTGJSON_VERSION service
               message w in
  sent out.2 = sent w ++ reqs
  ∧ (∃ all_succeeded, out.1 = Ok all_succeeded)
  ∧ (out.1 = Ok true
     ↔ Forall (λ post, succeeded post = true) (outcomes service (sent w) reqs)).
Proof.
  intros Htok Husers Hall reqs out. unfold reqs, out, send_push_notification.
  fold (recipients user_tokens).
  rewrite (nonempty_true app_token Htok). cbn [negb].
  rewrite bool_decide_eq_false_2 by done.
  pose proof (notify_users_spec message (recipients user_tokens) true w) as Hspec.
  cbn zeta in Hspec. destruct Hspec as (Hres & Hsent & _).
  destruct (traverse_posts_returns _ Hall) as [Hposts Hlen].
  split; [|split].
  - rewrite Hsent, Hlen, outcomes_length. by rewrite take_ge by lia.
  - rewrite Hres, Hposts. cbn. eauto.
  - rewrite Hres, traverse_posts_true. tauto.
Qed.
End PushoverFacts.

(** A block size of zero reads nothing: the digest is that of no input. *)
Example get_file_hash_zero_block :
  get_file_hash (hasher:=list bytes) [] (λ h b, h ++ [b]) (λ h, if h is [] then "empty" else "fed")
    "f" 0 {| files := λ _, Some [Byte.x61; Byte.x62]; log := []; sent := [] |}
  = (Ok "empty", {| files := λ _, Some [Byte.x61; Byte.x62]; log := []; sent := [] |}).
Proof. reflexivity. Qed.

Example get_file_hash_blocks :
  blocks_of 2 [Byte.x61; Byte.x62; Byte.x63] = [[Byte.x61; Byte.x62]; [Byte.x63]]
  ∧ blocks_of (-1) [Byte.x61; Byte.x62; Byte.x63] = [[Byte.x61; Byte.x62; Byte.x63]].
Proof. split; reflexivity. Qed.

Lemma send_push_notification_no_token_witness :
  let w := {| files := λ _, None; log := []; sent := [] |} in
  let service := λ (_ : list request) (_ : request), Ok {| ok := true; text := "" |} in
  "" = ""
  ∧ ∃ w', send_push_notification "" "u1,u2" "5.0" service "done" w = (Ok false, w')
          ∧ sent w' = sent w
          ∧ log w' = log w ++ [(WARNING,
                                "Unable to send Pushover notification. App token not set.")].
Proof.
  intros w service. split; [reflexivity|].
  apply (send_push_notification_no_token "" "u1,u2" "5.0" service "done" w). reflexivity.
Defined.

(** C9, as stated, fails when a send fails by raising: the post to the
    first of two recipients raises, the exception leaves the function, and
    the second recipient is never posted to. *)
Lemma send_push_notification_post_raises :
  let w := {| files := λ _, None; log := []; sent := [] |} in
  let service := λ (history : list request) (_ : request),
                   if bool_decide (history = []) then Raise RequestException
                   else Ok {| ok := true; text := "" |} in
  let out := send_push_notification "tok" "u1,u2" "5.0" service "done" w in
  recipients "u1,u2" = ["u1"; "u2"]
  ∧ out.1 = Raise RequestException
  ∧ sent out.2 = [pushover_request "tok" "5.0" "done" "u1"]
  ∧ log out.2 = [].
Proof. repeat split; reflexivity. Qed.

Lemma send_push_notification_all_recipients_witness :
  let w := {| files := λ _, None; log := []; sent := [] |} in
  let service := λ (history : list request) (_ : request),
                   Ok {| ok := negb (bool_decide (history = [])); text := "busy" |} in
  let reqs := pushover_request "tok" "5.0" "done" <$> recipients "u1,,u2" in
  let out := send_push_notification "tok" "u1,,u2" "5.0" service "done" w in
  "tok" ≠ "" ∧ recipients "u1,,u2" ≠ []
  ∧ Forall (λ post, returns post = true) (outcomes service (sent w) reqs)
  ∧ sent out.2 = sent w ++ reqs
  ∧ (∃ all_succeeded, out.1 = Ok all_succeeded)
  ∧ (out.1 = Ok true
     ↔ Forall (λ post, succeeded post = true) (outcomes service (sent w) reqs)).
Proof.
  intros w service reqs out.
  assert (Forall (λ post, returns post = true) (outcomes service (sent w) reqs)) as Hall
    by (by repeat constructor).
  split; [discriminate|]. split; [discriminate|]. split; [exact Hall|].
  apply (send_push_notification_all_recipients "tok" "u1,,u2" "5.0" service "done" w);
    [discriminate|discriminate|exact Hall].
Defined.

(** ** Worked examples *)

Example sort_internal_lists_nested_dict :
  sort_internal_lists
    (VDict [("b", VList [VStr "y"; VStr "x"]); ("a", VDict [("s", VSet [VInt 2; VInt 1])])])
  = Ok (VDict [("b", VList [VStr "x"; VStr "y"]); ("a", VDict [("s", VList [VInt 1; VInt 2])])]).
Proof. reflexivity. Qed.

Example sort_internal_lists_mixed :
  sort_internal_lists (VDict [("k", VList [VInt 1; VStr "a"])]) = Raise TypeError.
Proof. reflexivity. Qed.

Example sort_internal_lists_single_none :
  sort_internal_lists (VList [VNone]) = Ok (VList [VNone])
  ∧ sort_internal_lists (VList [VNone; VNone]) = Raise TypeError.
Proof. split; reflexivity. Qed.

(** The members of a list are not visited: the inner list stays as it is. *)
Example sort_internal_lists_inner_list :
  sort_internal_lists (VDict [("a", VList [VList [VInt 3; VInt 1]; VList [VInt 2]])])
  = Ok (VDict [("a", VList [VList [VInt 2]; VList [VInt 3; VInt 1]])]).
Proof. reflexivity. Qed.

(** The example of the specification: the two dictionaries share no key. *)
Example parallel_call_fold_dict_disjoint :
  parallel_call (λ t, t) identity [VDict [("a", VInt 1)]; VDict [("b", VInt 2)]]
    None false true false 32
  = Ok (VDict [("b", VInt 2); ("a", VInt 1)])
  ∧ py_eq (VDict [("b", VInt 2); ("a", VInt 1)]) (VDict [("a", VInt 1); ("b", VInt 2)]) = true.
Proof. split; reflexivity. Qed.

(** Repeated arguments follow the member of [args] in every invocation. *)
Example parallel_call_repeatable :
  parallel_call (λ t, t) (λ a, Ok (VTuple a)) [VInt 1; VInt 2]
    (Some [VStr "x"; VStr "y"]) false false false 2
  = Ok (VList [VTuple [VInt 1; VStr "x"; VStr "y"]; VTuple [VInt 2; VStr "x"; VStr "y"]]).
Proof. reflexivity. Qed.

(** A pool without room starts nothing; a negative size is refused. *)
Example parallel_call_no_room :
  parallel_call (λ t, t) identity [VInt 1] None false false false 0 = Raise LoopExit
  ∧ parallel_call (λ t, t) identity [VInt 1] None false false false (-1) = Raise ValueError.
Proof. split; reflexivity. Qed.

Example send_push_notification_second_fails :
  let service := λ (history : list request) (_ : request),
                   Ok {| ok := bool_decide (history = []); text := "busy" |} in
  let out := send_push_notification "tok" "u1,u2,u3" "5.0" service "done"
               {| files := λ _, None; log := []; sent := [] |} in
  out.1 = Ok false
  ∧ sent out.2 = pushover_request "tok" "5.0" "done" <$> ["u1"; "u2"; "u3"]
  ∧ log out.2 = [(WARNING, "Error sending Pushover notification: busy");
                 (WARNING, "Error sending Pushover notification: busy")].
Proof. repeat split; reflexivity. Qed.

(** * Further properties *)

(** ** Strings *)

Lemma chars_app (a b : string) : chars (a +:+ b) = chars a ++ chars b.
Proof. induction a as [|c a IH]; simpl; [done|]. by rewrite IH. Qed.

Lemma length_app_str (a b : string) :
  String.length (a +:+ b) = (String.length a + String.length b)%nat.
Proof. induction a as [|c a IH]; simpl; [done|]. by rewrite IH. Qed.

Lemma split_char_cons (sep : ascii) (s : string) :
  ∃ word words, split_char sep s = word :: words.
Proof.
  induction s as [|c s (w & ws & IH)]; simpl; [eauto|].
  destruct (Ascii.eqb c sep); [eauto|]. rewrite IH. eauto.
Qed.

Lemma split_char_free (sep : ascii) (s : string) :
  Forall (λ word, sep ∉ chars word) (split_char sep s).
Proof.
  induction s as [|c s IH]; simpl.
  - constructor; [apply not_elem_of_nil|constructor].
  - destruct (Ascii.eqb_spec c sep) as [->|Hne].
    + constructor; [apply not_elem_of_nil|done].
    + destruct (split_char sep s) as [|w ws]; simpl.
      * constructor; [|constructor]. simpl. rewrite not_elem_of_cons.
        split; [done|apply not_elem_of_nil].
      * apply Forall_cons in IH as [Hw Hws]. constructor; [|done].
        simpl. rewrite not_elem_of_cons. split; [done|exact Hw].
Qed.

Lemma split_char_absent (sep : ascii) (s : string) :
  sep ∉ chars s → split_char sep s = [s].
Proof.
  induction s as [|c s IH]; simpl; [done|].
  intros [Hne Hs]%not_elem_of_cons.
  destruct (Ascii.eqb_spec c sep) as [->|_]; [done|]. by rewrite IH.
Qed.

(** The fields of a split, with one separator between two of them, are as
    long as the text. *)
Lemma split_char_length (sep : ascii) (s : string) :
  (String.length (String.concat "" (split_char sep s)) + count_char sep s)%nat
  = String.length s
  ∧ length (split_char sep s) = S (count_char sep s).
Proof.
  induction s as [|c s [IH1 IH2]]; simpl; [done|].
  destruct (split_char sep s) as [|w ws]; [done|].
  destruct (Ascii.eqb c sep); simpl in *.
  - rewrite !length_app_str. simpl. split; lia.
  - split; [|done]. destruct ws; [simpl in *; lia|].
    change (String c w +:+ ?x) with (String c (w +:+ x)). simpl in *. lia.
Qed.

Lemma case_keeps_underscore (c : ascii) :
  c ≠ "_"%char → to_lower c ≠ "_"%char ∧ to_upper c ≠ "_"%char.
Proof.
  destruct c as [[] [] [] [] [] [] [] []]; intros H; split; vm_compute; congruence.
Qed.

Lemma title_from_free (previous_is_cased : bool) (s : string) :
  "_"%char ∉ chars s → "_"%char ∉ chars (title_from previous_is_cased s).
Proof.
  revert previous_is_cased. induction s as [|c s IH]; intros b; simpl; [done|].
  intros [Hc Hs]%not_elem_of_cons. apply not_elem_of_cons. split; [|by apply IH].
  destruct (case_keeps_underscore c) as [Hl Hu]; [done|]. destruct b; congruence.
Qed.

Lemma title_from_length (previous_is_cased : bool) (s : string) :
  String.length (title_from previous_is_cased s) = String.length s.
Proof.
  revert previous_is_cased. induction s as [|c s IH]; intros b; simpl; [done|].
  by rewrite IH.
Qed.

Lemma chars_concat_free (c : ascii) (words : list string) :
  Forall (λ word, c ∉ chars word) words → c ∉ chars (String.concat "" words).
Proof.
  induction 1 as [|w ws Hw _ IH]; simpl; [apply not_elem_of_nil|].
  destruct ws as [|w' ws]; [done|].
  rewrite chars_app. simpl. rewrite not_elem_of_app. split; [done|exact IH].
Qed.

Lemma length_concat_title (words : list string) :
  String.length (String.concat "" (title <$> words))
  = String.length (String.concat "" words).
Proof.
  induction words as [|w ws IH]; [done|].
  destruct ws as [|w' ws].
  - apply title_from_length.
  - rewrite !fmap_cons in *. cbn [String.concat] in *.
    rewrite !length_app_str in *. unfold title at 1. rewrite title_from_length.
    rewrite IH. done.
Qed.

Lemma append_empty_r (s : string) : s +:+ "" = s.
Proof.
  induction s as [|c s IH]; [done|].
  change (String c s +:+ "") with (String c (s +:+ "")). by rewrite IH.
Qed.

(** ** [to_camel_case] *)

(** X1: the result of [to_camel_case] holds no underscore. *)
Theorem to_camel_case_no_underscore (snake_str : string) :
  "_"%char ∉ chars (to_camel_case snake_str).
Proof.
  unfold to_camel_case. pose proof (split_char_free "_" snake_str) as Hfree.
  destruct (split_char "_" snake_str) as [|first others]; [apply not_elem_of_nil|].
  apply Forall_cons in Hfree as [Hfirst Hothers].
  rewrite chars_app, not_elem_of_app. split; [done|].
  apply chars_concat_free. rewrite Forall_fmap.
  eapply Forall_impl; [exact Hothers|]. intros w Hw. by apply title_from_free.
Qed.

(** X2: a text without underscore is returned as it is, upper-case letters
    included. *)
Theorem to_camel_case_without_underscore (snake_str : string) :
  "_"%char ∉ chars snake_str → to_camel_case snake_str = snake_str.
Proof.
  intros H. unfold to_camel_case. rewrite (split_char_absent _ _ H).
  apply append_empty_r.
Qed.

Lemma to_camel_case_without_underscore_witness :
  ("_"%char ∉ chars "setCode") ∧ to_camel_case "setCode" = "setCode".
Proof.
  assert ("_"%char ∉ chars "setCode") as H.
  { apply (bool_decide_unpack _). reflexivity. }
  split; [exact H|]. exact (to_camel_case_without_underscore "setCode" H).
Defined.

(** X3: [to_camel_case] is idempotent. *)
Theorem to_camel_case_idempotent (snake_str : string) :
  to_camel_case (to_camel_case snake_str) = to_camel_case snake_str.
Proof. apply to_camel_case_without_underscore, to_camel_case_no_underscore. Qed.

(** X4: on a text of the first 128 characters, [to_camel_case] removes the
    underscores and nothing else: the result is shorter than the text by the
    number of its underscores. *)
Theorem to_camel_case_length (snake_str : string) :
  is_ascii snake_str = true →
  (String.length (to_camel_case snake_str) + count_char "_" snake_str)%nat
  = String.length snake_str.
Proof.
  intros _. unfold to_camel_case.
  destruct (split_char_length "_" snake_str) as [Hlen _].
  destruct (split_char "_" snake_str) as [|first others]; [done|].
  rewrite <- Hlen. rewrite length_app_str, length_concat_title.
  cbn [String.concat]. destruct others as [|w ws]; simpl; [lia|].
  by rewrite !length_app_str.
Qed.

Lemma to_camel_case_length_witness :
  is_ascii "converted_mana_cost" = true
  ∧ (String.length (to_camel_case "converted_mana_cost")
     + count_char "_" "converted_mana_cost")%nat
    = String.length "converted_mana_cost".
Proof.
  split; [reflexivity|]. apply (to_camel_case_length "converted_mana_cost"). reflexivity.
Defined.

(** ** [fix_windows_set_name] *)

Lemma append_underscore_ne (s : string) : s ≠ s +:+ "_".
Proof.
  intros H. apply (f_equal String.length) in H.
  rewrite length_app_str in H. simpl in H. lia.
Qed.

(** X5: when no forbidden name is another forbidden name followed by an
    underscore, the result of [fix_windows_set_name] is never a forbidden
    name, and fixing it again changes nothing. *)
Theorem fix_windows_set_name_allowed (BAD_FILE_NAMES : list string) (set_name : string) :
  (∀ bad, bad ∈ BAD_FILE_NAMES → (bad +:+ "_") ∉ BAD_FILE_NAMES) →
  (fix_windows_set_name BAD_FILE_NAMES set_name ∉ BAD_FILE_NAMES)
  ∧ fix_windows_set_name BAD_FILE_NAMES (fix_windows_set_name BAD_FILE_NAMES set_name)
    = fix_windows_set_name BAD_FILE_NAMES set_name.
Proof.
  intros Hclosed.
  assert (fix_windows_set_name BAD_FILE_NAMES set_name ∉ BAD_FILE_NAMES) as Hout.
  { unfold fix_windows_set_name. case_bool_decide as Hbad; [by apply Hclosed|done]. }
  split; [done|].
  unfold fix_windows_set_name at 1. by rewrite bool_decide_eq_false_2.
Qed.

Lemma fix_windows_set_name_allowed_witness :
  let BAD := ["CON"; "PRN"; "AUX"; "NUL"] in
  (∀ bad, bad ∈ BAD → (bad +:+ "_") ∉ BAD)
  ∧ (fix_windows_set_name BAD "CON" ∉ BAD)
  ∧ fix_windows_set_name BAD (fix_windows_set_name BAD "CON") = fix_windows_set_name BAD "CON".
Proof.
  intros BAD.
  assert (∀ bad, bad ∈ BAD → (bad +:+ "_") ∉ BAD) as Hclosed.
  { apply Forall_forall. apply (bool_decide_unpack _). reflexivity. }
  split; [exact Hclosed|]. exact (fix_windows_set_name_allowed BAD "CON" Hclosed).
Defined.

(** X6: [fix_windows_set_name] is not injective: a forbidden name and the
    same name followed by an underscore, when that one is not forbidden, get
    the same result. *)
Theorem fix_windows_set_name_collision (BAD_FILE_NAMES : list string) (set_name : string) :
  set_name ∈ BAD_FILE_NAMES → (set_name +:+ "_") ∉ BAD_FILE_NAMES →
  set_name ≠ set_name +:+ "_"
  ∧ fix_windows_set_name BAD_FILE_NAMES set_name
    = fix_windows_set_name BAD_FILE_NAMES (set_name +:+ "_").
Proof.
  intros Hbad Hfree. split; [apply append_underscore_ne|].
  unfold fix_windows_set_name.
  by rewrite bool_decide_eq_true_2, bool_decide_eq_false_2.
Qed.

Lemma fix_windows_set_name_collision_witness :
  let BAD := ["CON"; "PRN"; "AUX"; "NUL"] in
  ("CON" ∈ BAD) ∧ ("CON_" ∉ BAD)
  ∧ "CON" ≠ "CON_"
  ∧ fix_windows_set_name BAD "CON" = fix_windows_set_name BAD "CON_".
Proof.
  intros BAD.
  assert ("CON" ∈ BAD) as Hin by (apply (bool_decide_unpack _); reflexivity).
  assert ("CON_" ∉ BAD) as Hout by (apply (bool_decide_unpack _); reflexivity).
  split; [exact Hin|]. split; [exact Hout|].
  exact (fix_windows_set_name_collision BAD "CON" Hin Hout).
Defined.

(** ** [url_keygen] *)

Lemma str_take_length (n : nat) (s : string) :
  String.length (str_take n s) = (n `min` String.length s)%nat.
Proof.
  revert s. induction n as [|n IH]; intros [|c s]; simpl; [done..|]. by rewrite IH.
Qed.

Lemma str_take_prefix (n : nat) (s : string) : String.prefix (str_take n s) s = true.
Proof.
  revert s. induction n as [|n IH]; intros [|c s]; simpl; [done..|].
  destruct (ascii_dec c c); [apply IH|done].
Qed.

(** X7: the key of [url_keygen] is the first 16 characters of the digest of
    the text of the seed, after the address of the links page when
    [with_leading] is set: 16 characters without it, 42 with it. *)
Theorem url_keygen_shape (sha256_hexdigest : string → string) (unique_seed : Z + string) :
  (16 ≤ String.length (sha256_hexdigest (seed_str unique_seed)))%nat →
  url_keygen sha256_hexdigest unique_seed true
  = "https://mtgjson.com/links/" +:+ url_keygen sha256_hexdigest unique_seed false
  ∧ String.length (url_keygen sha256_hexdigest unique_seed false) = 16%nat
  ∧ String.length (url_keygen sha256_hexdigest unique_seed true) = 42%nat
  ∧ String.prefix (url_keygen sha256_hexdigest unique_seed false)
                  (sha256_hexdigest (seed_str unique_seed)) = true.
Proof.
  intros Hlen. unfold url_keygen.
  change ("" +:+ ?x) with x. split; [done|].
  rewrite length_app_str, str_take_length. simpl String.length.
  split; [lia|]. split; [lia|]. apply str_take_prefix.
Qed.

Lemma url_keygen_shape_witness :
  let sha := λ s : string, "9f86d081884c7d659a2feaa0c55ad015" +:+ s in
  (16 ≤ String.length (sha (seed_str (inl 7%Z))))%nat
  ∧ url_keygen sha (inl 7%Z) true = "https://mtgjson.com/links/" +:+ url_keygen sha (inl 7%Z) false
  ∧ String.length (url_keygen sha (inl 7%Z) false) = 16%nat
  ∧ String.length (url_keygen sha (inl 7%Z) true) = 42%nat
  ∧ String.prefix (url_keygen sha (inl 7%Z) false) (sha (seed_str (inl 7%Z))) = true.
Proof.
  intros sha.
  assert (16 ≤ String.length (sha (seed_str (inl 7%Z))))%nat as H by (vm_compute; lia).
  split; [exact H|]. exact (url_keygen_shape sha (inl 7%Z) H).
Defined.

(** ** [parse_magic_rules_subset] *)

Lemma split_from_skip (sep : string) (skip : nat) (s : string) :
  split_from sep skip s = py_split sep (str_drop skip s).
Proof.
  unfold py_split. revert skip. induction s as [|c s IH]; intros [|k]; try done.
  simpl. apply IH.
Qed.

(** [split] cuts at the first occurrence and goes on after it. *)
Lemma py_split_find (sep s : string) :
  sep ≠ "" →
  py_split sep s =
  match str_find sep s with
  | None => [s]
  | Some n => str_take n s :: py_split sep (str_drop (n + String.length sep) s)
  end.
Proof.
  intros Hsep. unfold py_split. induction s as [|c s IH].
  - simpl. by destruct sep.
  - cbn [split_from str_find]. destruct (String.prefix sep (String c s)) eqn:Hp.
    + rewrite split_from_skip. cbn [str_take Nat.add]. unfold py_split.
      destruct sep as [|c' sep]; [done|]. simpl. by rewrite Nat.sub_0_r.
    + rewrite IH. by destruct (str_find sep s).
Qed.

Lemma py_split_head (sep s : string) :
  sep ≠ "" → py_split sep s !! 0%nat = Some (cut_at sep s).
Proof.
  intros Hsep. rewrite py_split_find by done. unfold cut_at.
  by destruct (str_find sep s).
Qed.

(** X8: with both headers given, [parse_magic_rules_subset] takes the text
    after the second occurrence of [start_header], cuts it at the next
    occurrence of [start_header] and then at the first occurrence of
    [end_header], and normalises its line breaks; it fails with [IndexError]
    when [start_header] occurs fewer than twice. *)
Theorem parse_magic_rules_subset_between (magic_rules start_header end_header : string) :
  start_header ≠ "" → end_header ≠ "" →
  parse_magic_rules_subset magic_rules start_header end_header
  = (after1 ← after_first start_header magic_rules;
     after2 ← after_first start_header after1;
     Some (normalise_lines (cut_at end_header (cut_at start_header after2)))).
Proof.
  intros Hstart Hend. unfold parse_magic_rules_subset, after_first.
  rewrite (nonempty_true _ Hstart), (nonempty_true _ Hend). cbn [andb].
  rewrite (py_split_find start_header magic_rules Hstart).
  destruct (str_find start_header magic_rules) as [n1|]; [|done].
  cbn [mbind option_bind]. rewrite lookup_cons_ne_0 by done. cbn [Nat.pred].
  set (after1 := str_drop (n1 + String.length start_header) magic_rules).
  rewrite (py_split_find start_header after1 Hstart).
  destruct (str_find start_header after1) as [n2|]; [|done].
  cbn [mbind option_bind]. rewrite lookup_cons_ne_0 by done. cbn [Nat.pred].
  rewrite py_split_head by done. cbn [mbind option_bind].
  by rewrite py_split_head.
Qed.

Lemma parse_magic_rules_subset_between_witness :
  let rules := "1. Intro 7. Keywords 9. End | 1. Intro text 7. Keywords flying, haste 9. End" in
  "7. Keywords" ≠ "" ∧ "9. End" ≠ ""
  ∧ parse_magic_rules_subset rules "7. Keywords" "9. End"
    = (after1 ← after_first "7. Keywords" rules;
       after2 ← after_first "7. Keywords" after1;
       Some (normalise_lines (cut_at "9. End" (cut_at "7. Keywords" after2)))).
Proof.
  intros rules. split; [discriminate|]. split; [discriminate|].
  apply (parse_magic_rules_subset_between rules "7. Keywords" "9. End"); discriminate.
Defined.

Example parse_magic_rules_subset_keywords :
  parse_magic_rules_subset
    "1. Intro 7. Keywords 9. End | 1. Intro text 7. Keywords flying, haste 9. End"
    "7. Keywords" "9. End"
  = Some " flying, haste "
  ∧ parse_magic_rules_subset "1. Intro 7. Keywords 9. End" "7. Keywords" "9. End" = None.
Proof. split; reflexivity. Qed.

Lemma lines_from_clean (after_cr : bool) (s : string) :
  Forall (λ line, Forall (λ c, is_line_break c = false) (chars line))
         (lines_from after_cr s).
Proof.
  revert after_cr. induction s as [|c s IH]; intros b; simpl; [constructor|].
  destruct (b && Ascii.eqb c LF); [apply IH|].
  destruct (is_line_break c) eqn:Hc; [by constructor|].
  specialize (IH false). destruct (lines_from false s) as [|line lines].
  - repeat constructor. done.
  - apply Forall_cons in IH as [Hl Hls]. constructor; [|done]. by constructor.
Qed.

Lemma chars_join_lines (lines : list string) :
  Forall (λ line, Forall (λ c, is_line_break c = false) (chars line)) lines →
  Forall (λ c, is_line_break c = true → c = LF)
         (chars (String.concat (String LF EmptyString) lines)).
Proof.
  induction 1 as [|line lines Hl _ IH]; simpl; [constructor|].
  assert (Forall (λ c, is_line_break c = true → c = LF) (chars line)) as Hline.
  { eapply Forall_impl; [exact Hl|]. intros c Hc. by rewrite Hc. }
  destruct lines as [|line' lines]; [done|].
  rewrite chars_app. apply Forall_app. split; [done|].
  change (String LF "" +:+ ?x) with (String LF x). constructor; done.
Qed.

(** X9: whatever the headers, the result of [parse_magic_rules_subset] has
    no line break other than the line feed: no carriage return is left. *)
Theorem parse_magic_rules_subset_line_feeds (magic_rules start_header end_header : string)
    (result : string) :
  parse_magic_rules_subset magic_rules start_header end_header = Some result →
  Forall (λ c, is_line_break c = true → c = LF) (chars result)
  ∧ CR ∉ chars result.
Proof.
  unfold parse_magic_rules_subset.
  intros (rules & _ & [= <-])%bind_Some.
  assert (Forall (λ c, is_line_break c = true → c = LF)
            (chars (String.concat (String LF "") (splitlines rules)))) as H.
  { apply chars_join_lines, lines_from_clean. }
  split; [exact H|]. intros Hin. rewrite Forall_forall in H.
  by specialize (H CR Hin eq_refl).
Qed.

Lemma parse_magic_rules_subset_line_feeds_witness :
  let rules := "first" +:+ String CR (String LF "second") +:+ String CR "third" in
  let result := "first" +:+ String LF "second" +:+ String LF "third" in
  parse_magic_rules_subset rules "" "" = Some result
  ∧ Forall (λ c, is_line_break c = true → c = LF) (chars result)
  ∧ CR ∉ chars result.
Proof.
  intros rules result.
  assert (parse_magic_rules_subset rules "" "" = Some result) as H by reflexivity.
  split; [exact H|]. exact (parse_magic_rules_subset_line_feeds rules "" "" result H).
Defined.

Lemma lines_from_plain (s : string) :
  Forall (λ c, is_line_break c = false) (chars s) →
  lines_from false s = match s with EmptyString => [] | _ => [s] end.
Proof.
  induction s as [|c s IH]; [done|]. simpl.
  intros [Hc Hs]%Forall_cons. rewrite Hc, (IH Hs). by destruct s.
Qed.

(** X10: without headers (or with one of them empty), a text of the first
    128 characters that holds no line break is returned as it is; in
    particular the empty text gives the empty text. *)
Theorem parse_magic_rules_subset_plain (magic_rules start_header end_header : string) :
  start_header = "" ∨ end_header = "" →
  is_ascii magic_rules = true →
  Forall (λ c, is_line_break c = false) (chars magic_rules) →
  parse_magic_rules_subset magic_rules start_header end_header = Some magic_rules.
Proof.
  intros Hheaders _ Hplain. unfold parse_magic_rules_subset.
  assert (nonempty start_header && nonempty end_header = false) as ->.
  { destruct Hheaders as [-> | ->]; [done|apply andb_false_r]. }
  cbn [mbind option_bind]. unfold splitlines. rewrite (lines_from_plain _ Hplain).
  by destruct magic_rules.
Qed.

Lemma parse_magic_rules_subset_plain_witness :
  ("" = "" ∨ "702." = "")
  ∧ is_ascii "701. Keyword Actions" = true
  ∧ Forall (λ c, is_line_break c = false) (chars "701. Keyword Actions")
  ∧ parse_magic_rules_subset "701. Keyword Actions" "" "702."
    = Some "701. Keyword Actions".
Proof.
  assert (Forall (λ c, is_line_break c = false) (chars "701. Keyword Actions")) as H.
  { apply (bool_decide_unpack _). reflexivity. }
  split; [by left|]. split; [reflexivity|]. split; [exact H|].
  exact (parse_magic_rules_subset_plain "701. Keyword Actions" "" "702."
           (or_introl eq_refl) eq_refl H).
Defined.

(** ** More on [sort_internal_lists] *)

Lemma sort_internal_lists_dict_traverse (d : dict) :
  NoDup (dict_keys d) →
  sort_internal_lists (VDict d) = VDict <$> traverse normalize_entry d.
Proof.
  intros Hnd.
  change (sort_internal_lists (VDict d))
    with (VDict <$> store_each sort_internal_lists d ([] ++ d)).
  rewrite (store_each_traverse sort_internal_lists [] d Hnd).
  unfold normalize_entry. by destruct (traverse _ d).
Qed.

Lemma traverse_normalize_entry_fixed (d : dict) :
  Forall (λ kv, sort_internal_lists kv.2 = Ok kv.2) d →
  traverse normalize_entry d = Ok d.
Proof.
  induction 1 as [|[k v] d Hkv _ IH]; [done|].
  cbn [traverse]. rewrite IH. unfold normalize_entry. cbn [fst snd] in *.
  by rewrite Hkv.
Qed.

Lemma Forall2_entry_keys (d d' : dict) :
  Forall2 (λ kv kv', kv'.1 = kv.1 ∧ sort_internal_lists kv.2 = Ok kv'.2) d d' →
  dict_keys d' = dict_keys d.
Proof.
  unfold dict_keys. induction 1 as [|kv kv' d d' [Hk _] _ IH]; [done|].
  rewrite !fmap_cons. by f_equal.
Qed.

(** X11: [sort_internal_lists] is idempotent on every input it accepts: what
    it returns is returned unchanged by a second call.  The dictionaries it
    visits have distinct keys, as every Python dictionary has. *)
Theorem sort_internal_lists_idempotent (data result : value) :
  wf_value data = true →
  sort_internal_lists data = Ok result →
  sort_internal_lists result = Ok result.
Proof.
  revert result.
  assert (∀ l r, VList <$> sorted l = Ok r → sort_internal_lists r = Ok r) as Hseq.
  { intros l r (l' & Hl' & ->)%fmap_Ok.
    destruct (sorted_by_sorted py_lt py_lt_asym l l' Hl') as [Hs _].
    simpl. unfold sorted. by rewrite (sorted_by_ascending py_lt l' Hs). }
  induction data as [| | | |l IH|l IH|l IH|d IH] using value_nested_ind;
    intros r Hwf Hr; try (by injection Hr as <-).
  - by apply (Hseq l).
  - by apply (Hseq l).
  - cbn [wf_value] in Hwf. apply andb_true_iff in Hwf as [Hnd%bool_decide_eq_true Hwf].
    rewrite sort_internal_lists_dict_traverse in Hr by done.
    apply fmap_Ok in Hr as (d' & Hd' & ->).
    pose proof (traverse_entry_keys sort_internal_lists d d' Hd') as HF.
    rewrite sort_internal_lists_dict_traverse
      by (by rewrite (Forall2_entry_keys d d' HF)).
    rewrite traverse_normalize_entry_fixed; [done|].
    rewrite forallb_forall in Hwf. clear Hd' Hnd.
    induction HF as [|kv kv' d d' [_ Hkv] _ IHF]; [constructor|].
    apply Forall_cons in IH as [IHkv IHd]. constructor.
    + apply (IHkv _ (Hwf kv (or_introl eq_refl)) Hkv).
    + apply IHF; [done|]. intros x Hx. apply Hwf. by right.
Qed.

Lemma sort_internal_lists_idempotent_witness :
  let data := VDict [("b", VSet [VInt 2; VInt 1]);
                     ("a", VDict [("l", VList [VStr "y"; VStr "x"])])] in
  let result := VDict [("b", VList [VInt 1; VInt 2]);
                       ("a", VDict [("l", VList [VStr "x"; VStr "y"])])] in
  wf_value data = true
  ∧ sort_internal_lists data = Ok result
  ∧ sort_internal_lists result = Ok result.
Proof.
  intros data result. split; [reflexivity|]. split; [reflexivity|].
  apply (sort_internal_lists_idempotent data result); reflexivity.
Defined.

(** X12: [sort_internal_lists] does not look into the members of a list or
    of a set: the list it returns holds the members exactly as they were,
    in another order. *)
Theorem sort_internal_lists_members (items : list value) (result : value) :
  sort_internal_lists (VList items) = Ok result
  ∨ sort_internal_lists (VSet items) = Ok result →
  ∃ items', result = VList items' ∧ items' ≡ₚ items.
Proof.
  assert (VList <$> sorted items = Ok result →
          ∃ items', result = VList items' ∧ items' ≡ₚ items) as H.
  { intros (items' & Hs & ->)%fmap_Ok. exists items'. split; [done|].
    by destruct (sorted_by_sorted py_lt py_lt_asym items items' Hs). }
  intros [Hr|Hr]; by apply H.
Qed.

Lemma sort_internal_lists_members_witness :
  let inner := VDict [("unsorted", VList [VInt 2; VInt 1])] in
  (sort_internal_lists (VList [inner]) = Ok (VList [inner])
   ∨ sort_internal_lists (VSet [inner]) = Ok (VList [inner]))
  ∧ ∃ items', VList [inner] = VList items' ∧ items' ≡ₚ [inner].
Proof.
  intros inner.
  assert (sort_internal_lists (VList [inner]) = Ok (VList [inner])) as H by reflexivity.
  split; [by left|].
  exact (sort_internal_lists_members [inner] (VList [inner]) (or_introl H)).
Defined.

(** X13: a set of mutually orderable members is replaced by the list of its
    members in ascending order; when [<=] is a total order on the members,
    the list does not depend on the order in which the set is iterated. *)
Theorem sort_internal_lists_set_order (S S2 : list value) :
  orderable S = true → orderable S2 = true → S2 ≡ₚ S →
  (∀ x y z, x ∈ S → y ∈ S → z ∈ S → py_le x y → py_le y z → py_le x z) →
  (∀ x y, x ∈ S → y ∈ S → py_le x y → py_le y x → x = y) →
  ∃ S', sort_internal_lists (VSet S) = Ok (VList S')
        ∧ sort_internal_lists (VSet S2) = Ok (VList S')
        ∧ S' ≡ₚ S
        ∧ StronglySorted py_le S'.
Proof.
  intros HS HS2 Hperm Htrans Hanti.
  destruct (sorted_by_returns py_lt S HS) as [S' HS'].
  destruct (sorted_by_returns py_lt S2 HS2) as [S2' HS2'].
  destruct (sorted_by_sorted py_lt py_lt_asym S S' HS') as [Hs Hp].
  destruct (sorted_by_sorted py_lt py_lt_asym S2 S2' HS2') as [Hs2 Hp2].
  assert (StronglySorted py_le S') as Hss.
  { apply Sorted_StronglySorted_on; [|done].
    intros x y z Hx Hy Hz. rewrite Hp in Hx, Hy, Hz. by apply Htrans. }
  assert (StronglySorted py_le S2') as Hss2.
  { apply Sorted_StronglySorted_on; [|done].
    intros x y z Hx Hy Hz. rewrite Hp2, Hperm in Hx, Hy, Hz. by apply Htrans. }
  assert (S' = S2') as <-.
  { apply (StronglySorted_unique_strong py_le); [|done..|by rewrite Hp, Hp2].
    intros x y Hx Hy. rewrite Hp in Hx. rewrite Hp2, Hperm in Hy. by apply Hanti. }
  exists S'. cbn [sort_internal_lists]. unfold sorted. rewrite HS', HS2'.
  by repeat split.
Qed.

Lemma sort_internal_lists_set_order_witness :
  let S := VInt <$> [2; 1; 3] in
  let S2 := VInt <$> [3; 2; 1] in
  orderable S = true ∧ orderable S2 = true ∧ S2 ≡ₚ S
  ∧ ∃ S', sort_internal_lists (VSet S) = Ok (VList S')
          ∧ sort_internal_lists (VSet S2) = Ok (VList S')
          ∧ S' ≡ₚ S
          ∧ StronglySorted py_le S'.
Proof.
  intros S S2.
  assert (S2 ≡ₚ S) as Hperm.
  { unfold S, S2. apply fmap_Permutation.
    apply (Permutation_trans (reverse_Permutation [1; 2; 3])).
    apply Permutation_swap. }
  split; [reflexivity|]. split; [reflexivity|]. split; [exact Hperm|].
  destruct (py_le_ints_total_order [2; 1; 3]) as [Htrans Hanti].
  exact (sort_internal_lists_set_order S S2 eq_refl eq_refl Hperm Htrans Hanti).
Defined.

(** ** More on [get_file_hash] *)

Lemma blocks_of_nil (n : Z) : blocks_of n [] = [].
Proof.
  destruct (Z.ltb_spec n (-1)) as [Hn|Hn]; [by apply blocks_of_refused|].
  apply (blocks_of_stop n [] []). unfold file_read.
  destruct (Z.ltb_spec n (-1)); [lia|].
  destruct (n <? 0); [done|]. by rewrite take_nil, drop_nil.
Qed.

Lemma blocks_of_zero (rest : bytes) : blocks_of 0 rest = [].
Proof. by apply (blocks_of_stop 0 rest rest). Qed.

(** X14: for a digest object whose state depends only on the bytes it was
    fed, not on how they were cut, [get_file_hash] returns the digest of the
    whole contents of the file, the same for every block size that is
    positive or [-1]. *)
Theorem get_file_hash_any_block_size {hasher : Type} (HASH_TO_GENERATE : hasher)
    (update : hasher → bytes → hasher) (hexdigest : hasher → string)
    (file_to_hash : string) (block_size : Z) (w : world) (contents : bytes) :
  (∀ h, update h [] = h) →
  (∀ h b1 b2, update (update h b1) b2 = update h (b1 ++ b2)) →
  files w file_to_hash = Some contents → 0 < block_size ∨ block_size = -1 →
  get_file_hash HASH_TO_GENERATE update hexdigest file_to_hash block_size w
  = (Ok (hexdigest (update HASH_TO_GENERATE contents)), w).
Proof.
  intros Hnil Happ Hfile Hn. unfold get_file_hash.
  rewrite Hfile, hash_loop_blocks by lia. cbn.
  rewrite (fold_update_concat update Hnil Happ), blocks_of_concat by lia. done.
Qed.

Lemma get_file_hash_any_block_size_witness :
  let w := {| files := λ _, Some [Byte.x61; Byte.x62; Byte.x63]; log := []; sent := [] |} in
  let update := λ (h b : bytes), h ++ b in
  (∀ h, update h [] = h)
  ∧ (∀ h b1 b2, update (update h b1) b2 = update h (b1 ++ b2))
  ∧ files w "AllPrintings.json" = Some [Byte.x61; Byte.x62; Byte.x63]
  ∧ (0 < 2 ∨ 2 = -1)
  ∧ get_file_hash [] update String.string_of_list_byte "AllPrintings.json" 2 w
    = (Ok (String.string_of_list_byte (update [] [Byte.x61; Byte.x62; Byte.x63])), w).
Proof.
  intros w update.
  assert (∀ h, update h [] = h) as Hnil by (intros h; apply app_nil_r).
  assert (∀ h b1 b2, update (update h b1) b2 = update h (b1 ++ b2)) as Happ.
  { intros h b1 b2. unfold update. by rewrite <- app_assoc. }
  split; [exact Hnil|]. split; [exact Happ|]. split; [reflexivity|].
  split; [left; lia|].
  apply (get_file_hash_any_block_size [] update String.string_of_list_byte
           "AllPrintings.json" 2 w [Byte.x61; Byte.x62; Byte.x63] Hnil Happ);
    [reflexivity|left; lia].
Defined.

(** X15: with a block size of zero, whatever the file holds, or for an
    empty file read with a block size of [-1] or more, nothing is fed to
    the digest object: the result is the digest of no input. *)
Theorem get_file_hash_nothing_read {hasher : Type} (HASH_TO_GENERATE : hasher)
    (update : hasher → bytes → hasher) (hexdigest : hasher → string)
    (file_to_hash : string) (block_size : Z) (w : world) (contents : bytes) :
  files w file_to_hash = Some contents →
  block_size = 0 ∨ (contents = [] ∧ -1 ≤ block_size) →
  get_file_hash HASH_TO_GENERATE update hexdigest file_to_hash block_size w
  = (Ok (hexdigest HASH_TO_GENERATE), w).
Proof.
  intros Hfile Hcase. unfold get_file_hash.
  rewrite Hfile, hash_loop_blocks by (destruct Hcase as [->|[_ ?]]; lia).
  destruct Hcase as [-> | [-> _]]; by rewrite ?blocks_of_zero, ?blocks_of_nil.
Qed.

Lemma get_file_hash_nothing_read_witness :
  let w := {| files := λ _, Some [Byte.x61; Byte.x62; Byte.x63]; log := []; sent := [] |} in
  let update := λ (h b : bytes), h ++ b in
  files w "AllPrintings.json" = Some [Byte.x61; Byte.x62; Byte.x63]
  ∧ (0 = 0 ∨ ([Byte.x61; Byte.x62; Byte.x63] = [] ∧ -1 ≤ 0))
  ∧ get_file_hash [] update String.string_of_list_byte "AllPrintings.json" 0 w
    = (Ok (String.string_of_list_byte []), w).
Proof.
  intros w update. split; [reflexivity|]. split; [by left|].
  apply (get_file_hash_nothing_read [] update String.string_of_list_byte
           "AllPrintings.json" 0 w [Byte.x61; Byte.x62; Byte.x63]);
    [reflexivity|by left].
Defined.

Lemma blocks_of_full (n : Z) (rest : bytes) :
  0 < n →
  ∀ i block, blocks_of n rest !! i = Some block →
    (S i < length (blocks_of n rest))%nat → length block = Z.to_nat n.
Proof.
  intros Hn. funelim (blocks_of n rest); intros i block Hi Hlen; [done| |done].
  assert (b :: bs = take (Z.to_nat n) rest ∧ rest' = drop (Z.to_nat n) rest)
    as [Hb Hrest'].
  { pose proof Hread as Hr. revert Hr. unfold file_read.
    destruct (Z.ltb_spec n (-1)); [lia|].
    destruct (Z.ltb_spec n 0); [lia|]. by intros [= <- <-]. }
  destruct i as [|i].
  - injection Hi as <-. rewrite Hb, length_take.
    destruct (decide (Z.to_nat n ≤ length rest)%nat) as [|Hshort]; [lia|].
    rewrite Hrest', drop_ge, blocks_of_nil in Hlen by lia. simpl in Hlen. lia.
  - simpl in Hi, Hlen. match goal with IH : 0 < n → _ |- _ => apply (IH Hn i) end;
      [done|lia].
Qed.

(** X16: for a positive block size, the digest object is fed with blocks of
    exactly [block_size] bytes, except the last block, which may be
    shorter. *)
Theorem get_file_hash_full_blocks {hasher : Type} (HASH_TO_GENERATE : hasher)
    (update : hasher → bytes → hasher) (hexdigest : hasher → string)
    (file_to_hash : string) (block_size : Z) (w : world) (contents : bytes) :
  files w file_to_hash = Some contents → 0 < block_size →
  ∃ blocks,
    get_file_hash HASH_TO_GENERATE update hexdigest file_to_hash block_size w
    = (Ok (hexdigest (fold_left update blocks HASH_TO_GENERATE)), w)
    ∧ List.concat blocks = contents
    ∧ (∀ i block, blocks !! i = Some block → (S i < length blocks)%nat →
         length block = Z.to_nat block_size)
    ∧ (∀ block, last blocks = Some block →
         (0 < length block ≤ Z.to_nat block_size)%nat).
Proof.
  intros Hfile Hn. exists (blocks_of block_size contents).
  unfold get_file_hash. rewrite Hfile, hash_loop_blocks by lia.
  split; [done|]. split; [apply blocks_of_concat; lia|].
  split; [by apply blocks_of_full|].
  intros block Hlast. pose proof (blocks_of_sizes block_size contents) as Hsizes.
  rewrite Forall_forall in Hsizes.
  destruct (Hsizes block) as [Hne Hle].
  { apply last_Some in Hlast as [l' ->]. apply elem_of_app. right. left. }
  specialize (Hle Hn). destruct block; [done|]. simpl in *. lia.
Qed.

Lemma get_file_hash_full_blocks_witness :
  let w := {| files := λ _, Some [Byte.x61; Byte.x62; Byte.x63]; log := []; sent := [] |} in
  let update := λ (h : list bytes) (b : bytes), h ++ [b] in
  let hexdigest := λ h : list bytes, String.string_of_list_byte (List.concat h) in
  files w "AllPrintings.json" = Some [Byte.x61; Byte.x62; Byte.x63] ∧ 0 < 2
  ∧ ∃ blocks,
      get_file_hash [] update hexdigest "AllPrintings.json" 2 w
      = (Ok (hexdigest (fold_left update blocks [])), w)
      ∧ List.concat blocks = [Byte.x61; Byte.x62; Byte.x63]
      ∧ (∀ i block, blocks !! i = Some block → (S i < length blocks)%nat →
           length block = Z.to_nat 2)
      ∧ (∀ block, last blocks = Some block → (0 < length block ≤ Z.to_nat 2)%nat).
Proof.
  intros w update hexdigest. split; [reflexivity|]. split; [lia|].
  apply (get_file_hash_full_blocks [] update hexdigest "AllPrintings.json" 2 w
           [Byte.x61; Byte.x62; Byte.x63]); [reflexivity|lia].
Defined.

(** ** More on [send_push_notification] *)

Lemma split_comma_commas (s : string) :
  Forall (λ c, c = ","%char) (chars s) →
  filter (λ field, nonempty field = true) (split_comma s) = [].
Proof.
  induction s as [|c s IH]; [done|]. simpl.
  intros [-> Hs]%Forall_cons. simpl.
  rewrite filter_cons_False by done. by apply IH.
Qed.

Lemma split_comma_field (s : string) :
  ¬ Forall (λ c, c = ","%char) (chars s) →
  filter (λ field, nonempty field = true) (split_comma s) ≠ [].
Proof.
  induction s as [|c s IH]; simpl; [intros []; constructor|].
  intros Hs. destruct (Ascii.eqb_spec c ",") as [->|Hne].
  - rewrite filter_cons_False by done. apply IH. intros H. apply Hs. by constructor.
  - destruct (split_comma s) as [|field fields]; by rewrite filter_cons_True.
Qed.

(** The recipients are missing exactly when the configured text is empty or
    made of commas only. *)
Lemma recipients_nil (user_tokens : string) :
  recipients user_tokens = [] ↔ Forall (λ c, c = ","%char) (chars user_tokens).
Proof.
  unfold recipients. split; [|apply split_comma_commas].
  intros Hnil. destruct (decide (Forall (λ c, c = ","%char) (chars user_tokens)))
    as [|Hnot]; [done|]. by apply split_comma_field in Hnot.
Qed.

(** X17: with an application token, but a list of recipients that is empty
    or made of commas only, [send_push_notification] returns [False] after
    one warning, and posts nothing. *)
Theorem send_push_notification_no_recipient (app_token user_tokens MTGJSON_VERSION : string)
    (service : list request → request → result response) (message : string) (w : world) :
  app_token ≠ "" → Forall (λ c, c = ","%char) (chars user_tokens) →
  send_push_notification app_token user_tokens MTGJSON_VERSION service message w
  = (Ok false, LOGGER_warning "Unable to send Pushover notification. No user keys set." w).
Proof.
  intros Htok Husers%recipients_nil. unfold send_push_notification.
  fold (recipients user_tokens). rewrite (nonempty_true _ Htok), Husers. done.
Qed.

Lemma send_push_notification_no_recipient_witness :
  let w := {| files := λ _, None; log := []; sent := [] |} in
  let service := λ (_ : list request) (_ : request), Ok {| ok := true; text := "" |} in
  "tok" ≠ "" ∧ Forall (λ c, c = ","%char) (chars ",,")
  ∧ send_push_notification "tok" ",," "5.0" service "done" w
    = (Ok false, LOGGER_warning "Unable to send Pushover notification. No user keys set." w).
Proof.
  intros w service.
  assert (Forall (λ c, c = ","%char) (chars ",,")) as H by (by repeat constructor).
  split; [discriminate|]. split; [exact H|].
  apply (send_push_notification_no_recipient "tok" ",," "5.0" service "done" w);
    [discriminate|exact H].
Defined.

(** The warnings of the loop: one for every response that came back and is
    not a success. *)
Lemma notify_users_log (app_token MTGJSON_VERSION : string)
    (service : list request → request → result response) (message : string)
    (users : list string) (all_succeeded : bool) (w : world) :
  log (notify_users app_token MTGJSON_VERSION service message users all_succeeded w).2
  = log w ++ failure_warnings
               (received
                  (outcomes service (sent w)
                     (pushover_request app_token MTGJSON_VERSION message <$> users))).
Proof.
  revert all_succeeded w. induction users as [|user users IH]; intros acc w.
  - simpl. by rewrite app_nil_r.
  - cbn [notify_users requests_post]. rewrite fmap_cons. cbn [outcomes].
    fold (pushover_request app_token MTGJSON_VERSION message user).
    set (req := pushover_request app_token MTGJSON_VERSION message user).
    unfold failure_warnings. destruct (service (sent w) req) as [resp|e] eqn:Hpost.
    + cbn [received]. destruct (ok resp) eqn:Hok; cbn [negb].
      * rewrite IH. cbn [log sent]. by rewrite filter_cons_False by congruence.
      * rewrite IH. cbn [LOGGER_warning log sent].
        rewrite filter_cons_True by done. rewrite fmap_cons. by rewrite <- app_assoc.
    + cbn. by rewrite app_nil_r.
Qed.

(** X18: [send_push_notification] returns [True] exactly when an application
    token and at least one recipient are configured and every post brings
    back a response that is a success; whenever it returns [False] it has
    logged a warning. *)
Theorem send_push_notification_true (app_token user_tokens MTGJSON_VERSION : string)
    (service : list request → request → result response) (message : string)
    (w : world) :
  let out := send_push_notification app_token user_tokens MTGJSON_VERSION service
               message w in
  (out.1 = Ok true ↔
     app_token ≠ "" ∧ recipients user_tokens ≠ []
     ∧ Forall (λ post, succeeded post = true)
         (outcomes service (sent w)
            (pushover_request app_token MTGJSON_VERSION message
               <$> recipients user_tokens)))
  ∧ (out.1 = Ok false → ∃ msg, log out.2 = log w ++ msg ∧ msg ≠ []).
Proof.
  intros out. subst out. unfold send_push_notification. fold (recipients user_tokens).
  destruct (nonempty app_token) eqn:Htok; cbn [negb].
  - assert (app_token ≠ "") as Hne by (by intros ->).
    case_bool_decide as Husers.
    + split; [split; [done|tauto]|]. intros _. eexists. split; [done|done].
    + pose proof (notify_users_spec app_token MTGJSON_VERSION service message
                    (recipients user_tokens) true w) as Hspec.
      cbn zeta in Hspec. destruct Hspec as (Hres & _ & _).
      rewrite notify_users_log, Hres.
      set (posts := outcomes _ _ _). split.
      * rewrite traverse_posts_true. tauto.
      * intros (resps & Hresps & Hfalse)%fmap_Ok. cbn [andb] in Hfalse.
        rewrite (traverse_posts_received posts resps Hresps).
        eexists. split; [done|].
        unfold failure_warnings. intros Hnil%fmap_nil_inv.
        assert (forallb ok resps = true) as Hall; [|congruence].
        apply forallb_forall. intros resp Hin%list_elem_of_In.
        destruct (ok resp) eqn:Hok; [done|].
        assert (resp ∈ filter (λ r, ok r = false) resps) as Hf
          by (by apply list_elem_of_filter).
        rewrite Hnil in Hf. by apply elem_of_nil in Hf.
  - assert (app_token = "") as -> by (by destruct app_token).
    split; [split; [done|by intros [? _]]|]. intros _. eexists. split; [done|done].
Qed.

(** X19: with an application token and at least one recipient,
    [send_push_notification] logs one warning for every response that came
    back and is not a success, in order, carrying the text of the response,
    and nothing else. *)
Theorem send_push_notification_warnings (app_token user_tokens MTGJSON_VERSION : string)
    (service : list request → request → result response) (message : string)
    (w : world) :
  app_token ≠ "" → recipients user_tokens ≠ [] →
  log (send_push_notification app_token user_tokens MTGJSON_VERSION service message w).2
  = log w ++ failure_warnings
               (received
                  (outcomes service (sent w)
                     (pushover_request app_token MTGJSON_VERSION message
                        <$> recipients user_tokens))).
Proof.
  intros Htok Husers. unfold send_push_notification. fold (recipients user_tokens).
  rewrite (nonempty_true _ Htok). cbn [negb].
  rewrite bool_decide_eq_false_2 by done. apply notify_users_log.
Qed.

Lemma send_push_notification_warnings_witness :
  let w := {| files := λ _, None; log := []; sent := [] |} in
  let service := λ (history : list request) (_ : request),
                   Ok {| ok := bool_decide (history = []); text := "busy" |} in
  "tok" ≠ "" ∧ recipients "u1,u2" ≠ []
  ∧ log (send_push_notification "tok" "u1,u2" "5.0" service "done" w).2
    = log w ++ failure_warnings
                 (received
                    (outcomes service (sent w)
                       (pushover_request "tok" "5.0" "done" <$> recipients "u1,u2"))).
Proof.
  intros w service. split; [discriminate|]. split; [discriminate|].
  apply (send_push_notification_warnings "tok" "u1,u2" "5.0" service "done" w);
    discriminate.
Defined.

(** ** More on [parallel_call] *)

(** X20: with a pool of at least one slot and non-empty [repeatable_args],
    every invocation receives the member of [args] followed by the
    repeatable arguments, and [force_starmap] makes no difference. *)
Theorem parallel_call_repeatable_args (pick : nat → nat) (function : callable)
    (args repeatable_args : list value) (force_starmap : bool) (pool_size : Z) :
  1 ≤ pool_size → repeatable_args ≠ [] →
  parallel_call pick function args (Some repeatable_args) false false force_starmap pool_size
  = VList <$> traverse (λ a, function (a :: repeatable_args)) args.
Proof.
  intros Hsize Hreps. rewrite parallel_call_results by done.
  destruct repeatable_args as [|r reps]; [done|]. cbn [per_item].
  by destruct (traverse _ args).
Qed.

Lemma parallel_call_repeatable_args_witness :
  1 ≤ 4 ∧ [VStr "en"] ≠ []
  ∧ parallel_call (λ t, t) (λ a, Ok (VTuple a)) [VInt 1; VInt 2] (Some [VStr "en"])
                  false false true 4
    = VList <$> traverse (λ a, Ok (VTuple (a :: [VStr "en"]))) [VInt 1; VInt 2].
Proof.
  split; [lia|]. split; [discriminate|].
  apply (parallel_call_repeatable_args (λ t, t) (λ a, Ok (VTuple a)) [VInt 1; VInt 2]
           [VStr "en"] true 4); [lia|discriminate].
Defined.

Lemma traverse_Forall2 {A B} (k : A → result B) (l : list A) (l' : list B) :
  Forall2 (λ x y, k x = Ok y) l l' → traverse k l = Ok l'.
Proof.
  induction 1 as [|x y l l' Hxy _ IH]; [done|].
  cbn [traverse]. by rewrite Hxy, IH.
Qed.

(** X21: with [force_starmap] set and no [repeatable_args], every member of
    [args] is unpacked into the positional arguments of its invocation. *)
Theorem parallel_call_force_starmap (pick : nat → nat) (function : callable)
    (args : list value) (unpacked : list (list value)) (pool_size : Z) :
  1 ≤ pool_size → Forall2 (λ a l, py_iter a = Ok l) args unpacked →
  parallel_call pick function args None false false true pool_size
  = VList <$> traverse function unpacked.
Proof.
  intros Hsize Hargs. rewrite parallel_call_results by done.
  assert (traverse (per_item function None true) args = traverse function unpacked) as ->.
  { induction Hargs as [|a l args unpacked Ha _ IH]; [done|].
    cbn [traverse per_item]. unfold star at 1. rewrite Ha. cbn [mbind result_bind].
    by rewrite IH. }
  by destruct (traverse function unpacked).
Qed.

Lemma parallel_call_force_starmap_witness :
  let args := [VTuple [VInt 1; VStr "a"]; VList [VInt 2; VStr "b"]] in
  let unpacked := [[VInt 1; VStr "a"]; [VInt 2; VStr "b"]] in
  1 ≤ 4 ∧ Forall2 (λ a l, py_iter a = Ok l) args unpacked
  ∧ parallel_call (λ t, t) (λ a, Ok (VTuple a)) args None false false true 4
    = VList <$> traverse (λ a, Ok (VTuple a)) unpacked.
Proof.
  intros args unpacked.
  assert (Forall2 (λ a l, py_iter a = Ok l) args unpacked) as H by (by repeat constructor).
  split; [lia|]. split; [exact H|].
  apply (parallel_call_force_starmap (λ t, t) (λ a, Ok (VTuple a)) args unpacked 4);
    [lia|exact H].
Defined.

Lemma py_iter_raises (v : value) (e : exn) : py_iter v = Raise e → e = TypeError.
Proof. destruct v; simpl; congruence. Qed.

Lemma traverse_py_iter_raise (rs : list value) (r : value) :
  r ∈ rs → returns (py_iter r) = false → traverse py_iter rs = Raise TypeError.
Proof.
  induction rs as [|r0 rs IH]; intros Hin Hr; [by apply elem_of_nil in Hin|].
  cbn [traverse]. destruct (py_iter r0) as [l0|e] eqn:H0.
  - apply elem_of_cons in Hin as [->|Hin]; [by rewrite H0 in Hr|].
    cbn [mbind result_bind]. by rewrite IH.
  - by rewrite (py_iter_raises r0 e H0).
Qed.

(** X22: with [fold_list] set, a per-item result that cannot be iterated
    ([None], a Boolean or an integer) makes [parallel_call] raise
    [TypeError]. *)
Theorem parallel_call_fold_list_type_error (pick : nat → nat) (function : callable)
    (args : list value) (repeatable_args : option (list value))
    (fold_dict force_starmap : bool) (pool_size : Z) (rs : list value) (r : value) :
  1 ≤ pool_size →
  traverse (per_item function repeatable_args force_starmap) args = Ok rs →
  r ∈ rs → returns (py_iter r) = false →
  parallel_call pick function args repeatable_args true fold_dict force_starmap pool_size
  = Raise TypeError.
Proof.
  intros Hsize Hrs Hin Hr. rewrite parallel_call_results, Hrs by done.
  cbn [mbind result_bind]. unfold chain_from_iterable.
  by rewrite (traverse_py_iter_raise rs r Hin Hr).
Qed.

Lemma parallel_call_fold_list_type_error_witness :
  let args := [VList [VInt 1]; VNone] in
  1 ≤ 4
  ∧ traverse (per_item identity None false) args = Ok args
  ∧ VNone ∈ args ∧ returns (py_iter VNone) = false
  ∧ parallel_call (λ t, t) identity args None true false false 4 = Raise TypeError.
Proof.
  intros args.
  assert (VNone ∈ args) as Hin by (right; left).
  split; [lia|]. split; [reflexivity|]. split; [exact Hin|]. split; [reflexivity|].
  apply (parallel_call_fold_list_type_error (λ t, t) identity args None false false 4
           args VNone); [lia|reflexivity|exact Hin|reflexivity].
Defined.

(** X23: with both [fold_list] and [fold_dict] set, [fold_list] decides:
    when every per-item result is a dictionary, the result is the list of
    their keys, in the order of [args]. *)
Theorem parallel_call_both_folds (pick : nat → nat) (function : callable)
    (args : list value) (repeatable_args : option (list value)) (force_starmap : bool)
    (pool_size : Z) (ds : list dict) :
  1 ≤ pool_size →
  traverse (per_item function repeatable_args force_starmap) args = Ok (VDict <$> ds) →
  parallel_call pick function args repeatable_args true true force_starmap pool_size
  = Ok (VList (VStr <$> List.concat (dict_keys <$> ds))).
Proof.
  intros Hsize Hds. rewrite parallel_call_results, Hds by done.
  cbn [mbind result_bind]. unfold chain_from_iterable.
  assert (traverse py_iter (VDict <$> ds) = Ok ((λ d, VStr <$> dict_keys d) <$> ds)) as ->.
  { apply traverse_Forall2. apply Forall2_fmap.
    clear. induction ds; constructor; done. }
  cbn [fmap result_fmap]. do 2 f_equal.
  clear. induction ds as [|d ds IH]; [done|].
  rewrite !fmap_cons. cbn [List.concat]. by rewrite fmap_app, IH.
Qed.

Lemma parallel_call_both_folds_witness :
  let ds := [[("a", VInt 1)]; [("a", VInt 2); ("b", VInt 3)]] in
  1 ≤ 4
  ∧ traverse (per_item identity None false) (VDict <$> ds) = Ok (VDict <$> ds)
  ∧ parallel_call (λ t, t) identity (VDict <$> ds) None true true false 4
    = Ok (VList (VStr <$> List.concat (dict_keys <$> ds))).
Proof.
  intros ds. split; [lia|]. split; [reflexivity|].
  apply (parallel_call_both_folds (λ t, t) identity (VDict <$> ds) None false 4 ds);
    [lia|reflexivity].
Defined.

(** X24: on an empty [args], with a pool of at least one slot,
    [parallel_call] calls nothing and returns the empty list, or the empty
    dictionary when only [fold_dict] is set. *)
Theorem parallel_call_no_args (pick : nat → nat) (function : callable)
    (repeatable_args : option (list value)) (fold_list fold_dict force_starmap : bool)
    (pool_size : Z) :
  1 ≤ pool_size →
  parallel_call pick function [] repeatable_args fold_list fold_dict force_starmap pool_size
  = Ok (if fold_list then VList [] else if fold_dict then VDict [] else VList []).
Proof.
  intros Hsize. unfold parallel_call, Pool.
  destruct (Z.ltb_spec pool_size 0) as [|_]; [lia|]. cbn [mbind result_bind].
  destruct (truthy repeatable_args), force_starmap, fold_list, fold_dict; reflexivity.
Qed.

Lemma parallel_call_no_args_witness :
  1 ≤ 8
  ∧ parallel_call (λ t, t) identity [] None false true false 8
    = Ok (if false then VList [] else if true then VDict [] else VList []).
Proof.
  split; [lia|]. apply (parallel_call_no_args (λ t, t) identity None false true false 8). lia.
Defined.
